(** * three_particle: force-directed layout and hover handling

    A shallow embedding of [src/index.js] and of its sibling variant.  The
    two share [loadNetworkData] and [applyForceLayout] verbatim; their hover
    handlers differ in the constants of the highlight (record [Variant]),
    and the sibling's handler also steers the rotation of the scene, which
    is left out.

    - JavaScript numbers are kept abstract behind the class [Number]; the
      instance [js_number] is IEEE 754 binary64 (primitive floats), the
      instance [real_number] is exact real arithmetic.
    - The module-level arrays [nodes] and [edges] are the record [Graph];
      a node object is a [Node], and [nodes[i].fx += v] is an in-place
      [alter] at index [i], so that two references to one object alias.
    - A thrown [TypeError] is the constructor [Throw], which carries the
      state of the arrays at the moment of the throw.
    - A sphere mesh is referred to by its index in [nodeObjects]; what the
      raycaster returns for a pointer position comes with the event.  The
      raycaster itself is three.js; section "The pick resolver" models it.
    - A colour that may be [undefined] is an [option Z]; a material keeps
      its default white when constructed with [undefined], [setHex] makes
      black of it.  Line vertices live in a [Float32Array], hence in
      binary32. *)

From Stdlib Require Import ZArith List Lia Floats.PrimFloat Floats.SpecFloat Floats.FloatOps.
From Stdlib Require Import Reals Lra Sorting.Sorted.
From stdpp Require Import base list strings relations.

Local Open Scope Z_scope.

(** * Model *)

(** ** Numbers *)

(** The arithmetic [applyForceLayout] uses: the four operations, [Math.sqrt],
    and the literals that occur in the source; and the rounding a number
    undergoes when it is stored into a [Float32Array]. *)
Class Number (T : Type) : Type := {
  lit_0 : T;            (* 0 *)
  lit_0_1 : T;          (* 0.1 *)
  lit_0_5 : T;          (* 0.5 *)
  lit_0_9 : T;          (* 0.9 *)
  lit_40 : T;           (* 40 *)
  lit_1000 : T;         (* 1000 *)
  nadd : T -> T -> T;
  nsub : T -> T -> T;
  nmul : T -> T -> T;
  ndiv : T -> T -> T;
  nsqrt : T -> T;
  nfround : T -> T
}.

Declare Scope num_scope.
Delimit Scope num_scope with num.
Infix "+" := nadd : num_scope.
Infix "-" := nsub : num_scope.
Infix "*" := nmul : num_scope.
Infix "/" := ndiv : num_scope.

(** The binary32 value nearest to a binary64 one (ties to even, overflow
    to an infinity), as a binary64 value again. *)
Definition fround (f : float) : float :=
  match Prim2SF f with
  | S754_finite s m e => SF2Prim (binary_round 24 128 s m e)
  | _ => f
  end.

(** JavaScript's own numbers: binary64 with NaN and the infinities. *)
#[export] Instance js_number : Number float := {
  lit_0 := 0%float;
  lit_0_1 := 0x1.999999999999ap-4%float;
  lit_0_5 := 0.5%float;
  lit_0_9 := 0x1.ccccccccccccdp-1%float;
  lit_40 := 40%float;
  lit_1000 := 1000%float;
  nadd := PrimFloat.add;
  nsub := PrimFloat.sub;
  nmul := PrimFloat.mul;
  ndiv := PrimFloat.div;
  nsqrt := PrimFloat.sqrt;
  nfround := fround
}.

(** Exact arithmetic over the reals; [x / 0] is the library's total
    division, and nothing is ever rounded. *)
#[export] Instance real_number : Number R := {
  lit_0 := 0%R;
  lit_0_1 := (1 / 10)%R;
  lit_0_5 := (1 / 2)%R;
  lit_0_9 := (9 / 10)%R;
  lit_40 := 40%R;
  lit_1000 := 1000%R;
  nadd := Rplus;
  nsub := Rminus;
  nmul := Rmult;
  ndiv := Rdiv;
  nsqrt := sqrt;
  nfround := fun a => a
}.

(** What "exact" means for the conservation argument: addition is a
    commutative group operation and subtraction undoes it.  Nothing is asked
    of multiplication, division or the square root. *)
Class ExactNumber (T : Type) `{Number T} : Prop := {
  nadd_comm : forall a b : T, (a + b)%num = (b + a)%num;
  nadd_assoc : forall a b c : T, (a + (b + c))%num = ((a + b) + c)%num;
  nadd_0_l : forall a : T, (lit_0 + a)%num = a;
  nsub_add : forall a b : T, ((a - b) + b)%num = a
}.

(** ** Control flow *)

(** How a statement list ends: normally, or by a thrown [TypeError]; either
    way with the state as it is at that moment. *)
Inductive Outcome (A : Type) : Type :=
  | Normal (a : A)
  | Throw (a : A).
Arguments Normal {A} a.
Arguments Throw {A} a.

Definition outcome_state {A : Type} (o : Outcome A) : A :=
  match o with Normal a => a | Throw a => a end.

(** A throw leaves the remaining statements unexecuted. *)
Definition andThen {A : Type} (o : Outcome A) (k : A -> Outcome A) : Outcome A :=
  match o with
  | Normal a => k a
  | Throw a => Throw a
  end.

(** [for (let k = start; k < start + count; k++) s = body k s] *)
Fixpoint for_range {S : Type} (count start : nat) (body : nat -> S -> S) (s : S) : S :=
  match count with
  | O => s
  | Datatypes.S c => for_range c (Datatypes.S start) body (body start s)
  end.

(** [for (let k = lo; k < hi; k++) ...], for a bound the body leaves alone. *)
Definition for_loop {S : Type} (lo hi : nat) (body : nat -> S -> S) (s : S) : S :=
  for_range (hi - lo) lo body s.

(** ** Data model *)

Section Model.
Context {T : Type} `{Number T}.

(** A node object: the fields of the raw record ([name], [group]) and those
    [loadNetworkData] and [applyForceLayout] add to it. *)
Record Node : Type := mkNode {
  name : string;
  group : Z;
  id : nat;
  x : T; y : T; z : T;
  vx : T; vy : T; vz : T;
  fx : T; fy : T; fz : T
}.

(** A link of the raw data: two indices into [nodes]. *)
Record Edge : Type := mkEdge {
  source : Z;
  target : Z
}.

(** The module-level [let nodes = []; let edges = [];]. *)
Record Graph : Type := mkGraph {
  nodes : list Node;
  edges : list Edge
}.

(** [nodes[i]] for an index read from the data: [None] is [undefined]. *)
Definition node_at (ns : list Node) (i : Z) : option Node :=
  if (i <? 0)%Z then None else ns !! Z.to_nat i.

Definition set_force (n : Node) (a b c : T) : Node :=
  {| name := name n; group := group n; id := id n;
     x := x n; y := y n; z := z n;
     vx := vx n; vy := vy n; vz := vz n;
     fx := a; fy := b; fz := c |}.

(** [n.fx += a; n.fy += b; n.fz += c] *)
Definition add_force (v : T * T * T) (n : Node) : Node :=
  let '(a, b, c) := v in
  set_force n (fx n + a)%num (fy n + b)%num (fz n + c)%num.

(** [n.fx -= a; n.fy -= b; n.fz -= c] *)
Definition sub_force (v : T * T * T) (n : Node) : Node :=
  let '(a, b, c) := v in
  set_force n (fx n - a)%num (fy n - b)%num (fz n - c)%num.

(** ** The force layout *)

Definition iterations : nat := 300.
Definition repulsionStrength : T := lit_1000.
Definition attractionStrength : T := lit_0_1.
Definition damping : T := lit_0_9.

(** "Reset forces" *)
Definition resetForces (ns : list Node) : list Node :=
  map (fun n => set_force n lit_0 lit_0 lit_0) ns.

(** The force of one repulsion pair, as the loop body computes it from the
    two node objects. *)
Definition repulsionForce (ni nj : Node) : T * T * T :=
  let dx := (x ni - x nj)%num in
  let dy := (y ni - y nj)%num in
  let dz := (z ni - z nj)%num in
  let distance := (nsqrt (dx * dx + dy * dy + dz * dz) + lit_0_1)%num in
  let force := (repulsionStrength / (distance * distance))%num in
  ((dx / distance) * force, (dy / distance) * force, (dz / distance) * force)%num.

(** Body of the inner loop.  The loop bounds keep both indices inside the
    array, so the last case is never reached. *)
Definition repelPair (i j : nat) (ns : list Node) : list Node :=
  match ns !! i, ns !! j with
  | Some ni, Some nj =>
      let f := repulsionForce ni nj in
      alter (sub_force f) j (alter (add_force f) i ns)
  | _, _ => ns
  end.

(** "Repulsion between all nodes": the two nested [for] loops.  No body
    changes [nodes.length], so the bound is read once. *)
Definition repulsion (ns : list Node) : list Node :=
  let len := length ns in
  for_loop 0 len (fun i s => for_loop (i + 1) len (fun j s' => repelPair i j s') s) ns.

(** The force of one edge, from the source and target node objects. *)
Definition attractionForce (s t : Node) : T * T * T :=
  let dx := (x t - x s)%num in
  let dy := (y t - y s)%num in
  let dz := (z t - z s)%num in
  let distance := nsqrt (dx * dx + dy * dy + dz * dz)%num in
  let force := (attractionStrength * distance)%num in
  ((dx / distance) * force, (dy / distance) * force, (dz / distance) * force)%num.

(** Body of [edges.forEach]: reading [.x] of [undefined] throws. *)
Definition attractEdge (e : Edge) (ns : list Node) : Outcome (list Node) :=
  match node_at ns (source e), node_at ns (target e) with
  | Some s, Some t =>
      let f := attractionForce s t in
      Normal (alter (sub_force f) (Z.to_nat (target e))
                (alter (add_force f) (Z.to_nat (source e)) ns))
  | _, _ => Throw ns
  end.

(** "Attraction along edges" *)
Fixpoint attraction (es : list Edge) (ns : list Node) : Outcome (list Node) :=
  match es with
  | [] => Normal ns
  | e :: es' =>
      match attractEdge e ns with
      | Normal ns' => attraction es' ns'
      | Throw ns' => Throw ns'
      end
  end.

Definition integrateNode (n : Node) : Node :=
  let vx' := ((vx n + fx n) * damping)%num in
  let vy' := ((vy n + fy n) * damping)%num in
  let vz' := ((vz n + fz n) * damping)%num in
  {| name := name n; group := group n; id := id n;
     x := (x n + vx')%num; y := (y n + vy')%num; z := (z n + vz')%num;
     vx := vx'; vy := vy'; vz := vz';
     fx := fx n; fy := fy n; fz := fz n |}.

(** "Update positions" *)
Definition integrate (ns : list Node) : list Node := map integrateNode ns.

(** One turn of the outer loop. *)
Definition layoutIteration (g : Graph) : Outcome Graph :=
  match attraction (edges g) (repulsion (resetForces (nodes g))) with
  | Normal ns => Normal {| nodes := integrate ns; edges := edges g |}
  | Throw ns => Throw {| nodes := ns; edges := edges g |}
  end.

(** The outer loop; a throw leaves it. *)
Definition applyForceLayout (g : Graph) : Outcome Graph :=
  for_loop 0 iterations (fun _ o => andThen o layoutIteration) (Normal g).

End Model.

Arguments Node T : clear implicits.
Arguments Graph T : clear implicits.

(** ** Notions used to state the properties of the layout *)

Section Notions.
Context {T : Type} `{Number T}.

(** The fields of a node the layout has no assignment to. *)
Definition identity (n : Node T) : string * Z * nat := (name n, group n, id n).

(** The fields of a node no force pass assigns to: everything but the
    accumulator. *)
Definition kinematics (n : Node T) : string * Z * nat * (T * T * T) * (T * T * T) :=
  (name n, group n, id n, (x n, y n, z n), (vx n, vy n, vz n)).

Definition position (n : Node T) : T * T * T := (x n, y n, z n).

(** Both ends of the edge are indices of an array of [n] elements. *)
Definition edge_in_range (n : nat) (e : Edge) : Prop :=
  (0 <= source e < Z.of_nat n)%Z /\ (0 <= target e < Z.of_nat n)%Z.

Definition edges_in_range (g : Graph T) : Prop :=
  Forall (edge_in_range (length (nodes g))) (edges g).

#[global] Instance edge_in_range_dec n e : Decision (edge_in_range n e).
Proof. unfold edge_in_range. apply _. Defined.

(** One relaxation iteration as the four passes in their order, ending
    normally. *)
Definition relaxation (es : list Edge) (ns ns' : list (Node T)) : Prop :=
  exists a b c,
    a = resetForces ns /\ b = repulsion a /\ attraction es b = Normal c /\ ns' = integrate c.

(** The pairs the nested loops visit, in the order they visit them. *)
Definition visited_pairs (n : nat) : list (nat * nat) :=
  i ← seq 0 n; (fun j => (i, j)) <$> seq (i + 1) (n - (i + 1)).

(** The repulsion vector as the specification words it: [delta] is
    [position_i - position_j], [d] the Euclidean distance plus the softening
    constant, the magnitude [1000 / d^2], the vector [(delta / d) * magnitude]. *)
Definition softening : T := lit_0_1.
Definition K_rep : T := lit_1000.

Definition euclidean (d : T * T * T) : T :=
  let '(a, b, c) := d in nsqrt (a * a + b * b + c * c)%num.

Definition repulsion_vector (pi pj : T * T * T) : T * T * T :=
  let '(xi, yi, zi) := pi in
  let '(xj, yj, zj) := pj in
  let delta := ((xi - xj)%num, (yi - yj)%num, (zi - zj)%num) in
  let d := (euclidean delta + softening)%num in
  let magnitude := (K_rep / (d * d))%num in
  let '(a, b, c) := delta in
  ((a / d) * magnitude, (b / d) * magnitude, (c / d) * magnitude)%num.

(** The vector of pair [(i, j)] for the positions held in [ns]. *)
Definition pair_vector (ns : list (Node T)) (i j : nat) : option (T * T * T) :=
  match ns !! i, ns !! j with
  | Some ni, Some nj => Some (repulsion_vector (position ni) (position nj))
  | _, _ => None
  end.

(** Add [v] to the accumulator of node [i], subtract it from that of [j]. *)
Definition push_apart (i j : nat) (v : option (T * T * T)) (s : list (Node T)) : list (Node T) :=
  match v with
  | Some v => alter (sub_force v) j (alter (add_force v) i s)
  | None => s
  end.

(** The attraction vector as the specification words it: [delta] is the
    vector from source to target, [d] its length (no softening), the
    magnitude [0.1 * d], the vector [(delta / d) * magnitude]. *)
Definition K_att : T := lit_0_1.

Definition attraction_vector (ps pt : T * T * T) : T * T * T :=
  let '(xs, ys, zs) := ps in
  let '(xt, yt, zt) := pt in
  let delta := ((xt - xs)%num, (yt - ys)%num, (zt - zs)%num) in
  let d := euclidean delta in
  let magnitude := (K_att * d)%num in
  let '(a, b, c) := delta in
  ((a / d) * magnitude, (b / d) * magnitude, (c / d) * magnitude)%num.

(** The vector of edge [e] for the positions held in [ns]. *)
Definition edge_vector (ns : list (Node T)) (e : Edge) : option (T * T * T) :=
  match node_at ns (source e), node_at ns (target e) with
  | Some s, Some t => Some (attraction_vector (position s) (position t))
  | _, _ => None
  end.

(** Add [v] to the accumulator of the source of [e], subtract it from that
    of its target. *)
Definition pull_together (e : Edge) (v : option (T * T * T)) (s : list (Node T))
  : list (Node T) :=
  match v with
  | Some v => alter (sub_force v) (Z.to_nat (target e)) (alter (add_force v) (Z.to_nat (source e)) s)
  | None => s
  end.

(** The sum over all nodes of one component of the accumulator. *)
Definition total (p : Node T -> T) (ns : list (Node T)) : T :=
  foldr (fun n acc => (p n + acc)%num) lit_0 ns.

(** What "component" means here: one of the three accumulator fields,
    together with the matching coordinate of a vector. *)
Inductive Axis : Type := AxisX | AxisY | AxisZ.

Definition force_of (ax : Axis) (n : Node T) : T :=
  match ax with AxisX => fx n | AxisY => fy n | AxisZ => fz n end.

Definition coord_of (ax : Axis) (v : T * T * T) : T :=
  match ax with AxisX => v.1.1 | AxisY => v.1.2 | AxisZ => v.2 end.

End Notions.

(** ** The scene: loading, bodies and the hover handler *)

(** The two front-end variants differ in these constants only; the sibling
    variant highlights in plain white at scale 1.5. *)
Record Variant : Type := mkVariant {
  groupColors : list Z;
  (** the colour handed to [setHex] when a body is highlighted, from its
      [originalColor] *)
  hoverColor : option Z -> option Z;
  hoverScale : float;
  tooltipDx : Z
}.

(** [src/index.js]; [lighten c] stands for three.js's
    [new Color(c).lerp(new Color(0xffffff), 0.3).getHex()]. *)
Definition index_js (lighten : option Z -> option Z) : Variant := {|
  groupColors := [0x0078d4; 0x107c10; 0xff4b4b; 0xffb900; 0x5c2d91;
                  0x00bcf2; 0x498205; 0xd13438; 0xca5010; 0x8764b8;
                  0x038387; 0x8e562e; 0x567c73; 0x486991; 0x744da9]%Z;
  hoverColor := lighten;
  hoverScale := 0x1.4cccccccccccdp+0%float;   (* 1.3 *)
  tooltipDx := 15
|}.

(** The sibling variant. *)
Definition sibling_js : Variant := {|
  groupColors := [0x440154; 0x482777; 0x3f4a8a; 0x31678e; 0x26838f;
                  0x1f9d8a; 0x6cce5a; 0xb6de2b; 0xfee825; 0xfde725]%Z;
  hoverColor := fun _ => Some 0xffffff%Z;
  hoverScale := 1.5%float;
  tooltipDx := 10
|}.

(** A channel-wise blend of 24-bit colour [c] towards white by 3/10, used
    where an example needs some concrete [lighten]. *)
Definition blend_white (c : option Z) : option Z :=
  let mix v := (v + ((255 - v) * 3) / 10)%Z in
  match c with
  | Some h =>
      Some (mix (Z.land (Z.shiftr h 16) 255) * 65536
            + mix (Z.land (Z.shiftr h 8) 255) * 256
            + mix (Z.land h 255))%Z
  | None => Some 0xffffff%Z
  end.

(** What three.js makes of a colour that may be [undefined]: a material
    constructed with [color: undefined] keeps its default white, and
    [setHex(undefined)] sets black. *)
Definition materialColor (c : option Z) : Z := default 0xffffff%Z c.
Definition setHex (c : option Z) : Z := default 0%Z c.

(** What the raycaster reports for one body the ray meets. *)
Record Intersection : Type := mkIntersection {
  distance : float;
  object : nat            (* the body, as its index in [nodeObjects] *)
}.

(** A pointer-move event, with what [raycaster.intersectObjects(nodeObjects)]
    returns for it. *)
Record MouseEvent : Type := mkMouseEvent {
  clientX : Z;
  clientY : Z;
  intersects : list Intersection
}.

Inductive Display : Type := DisplayNone | DisplayBlock.
Inductive Cursor : Type := CursorDefault | CursorPointer.

Record Tooltip : Type := mkTooltip {
  display : Display;
  innerHTML : option (string * Z);      (* the name and group it shows *)
  left : option Z;
  top : option Z
}.

(** The visual changes the handler makes, in the order it makes them. *)
Inductive Action : Type :=
  | HighlightReverted (body : nat)
  | TooltipHidden
  | HighlightApplied (body : nat)
  | TooltipShown (body : nat).

Definition is_highlight_apply (a : Action) : bool :=
  match a with HighlightApplied _ => true | _ => false end.

(** The number of highlight applications among some actions. *)
Definition highlight_applies (acts : list Action) : nat :=
  length (List.filter is_highlight_apply acts).

Section Scene.
Context {T : Type} `{Number T}.
Variable variant : Variant.

(** A record of the raw data. *)
Record RawNode : Type := mkRawNode {
  raw_name : string;
  raw_group : Z
}.

Record RawData : Type := mkRawData {
  data_nodes : list RawNode;
  data_links : list Edge
}.

(** [sphere.userData] *)
Record UserData : Type := mkUserData {
  ud_name : string;
  ud_group : Z;
  originalColor : option Z;
  originalScale : float
}.

(** A sphere mesh: where it is, its [userData], and the two properties the
    hover effect assigns to, [material.color] and [scale]. *)
Record Mesh : Type := mkMesh {
  mesh_position : T * T * T;
  userData : UserData;
  color : Z;
  scale : float
}.

Record Line : Type := mkLine {
  line_from : T * T * T;
  line_to : T * T * T
}.

(** The module-level state. *)
Record World : Type := mkWorld {
  graph : Graph T;
  nodeObjects : list Mesh;
  edgeObjects : list Line;
  hoveredNode : option nat;
  tooltip : Tooltip;
  cursor : Cursor;
  console : list string;
  actions : list Action
}.

(** The state when the module has been evaluated and nothing is loaded. *)
Definition initial_world : World := {|
  graph := {| nodes := []; edges := [] |};
  nodeObjects := [];
  edgeObjects := [];
  hoveredNode := None;
  tooltip := {| display := DisplayNone; innerHTML := None; left := None; top := None |};
  cursor := CursorDefault;
  console := [];
  actions := []
|}.

Definition set_graph (w : World) (g : Graph T) : World :=
  {| graph := g; nodeObjects := nodeObjects w; edgeObjects := edgeObjects w;
     hoveredNode := hoveredNode w; tooltip := tooltip w; cursor := cursor w;
     console := console w; actions := actions w |}.

Definition set_objects (w : World) (ms : list Mesh) (ls : list Line) : World :=
  {| graph := graph w; nodeObjects := ms; edgeObjects := ls;
     hoveredNode := hoveredNode w; tooltip := tooltip w; cursor := cursor w;
     console := console w; actions := actions w |}.

Definition console_error (w : World) (msg : string) : World :=
  {| graph := graph w; nodeObjects := nodeObjects w; edgeObjects := edgeObjects w;
     hoveredNode := hoveredNode w; tooltip := tooltip w; cursor := cursor w;
     console := console w ++ [msg]; actions := actions w |}.

(** [groupColors[g % groupColors.length]]; a negative remainder indexes
    nothing. *)
Definition groupColor (g : Z) : option Z :=
  let k := Z.rem g (Z.of_nat (length (groupColors variant))) in
  if (k <? 0)%Z then None else groupColors variant !! Z.to_nat k.

(** The node object [loadNetworkData] makes of the [i]-th raw record;
    [rand k] is the result of the [k]-th call of [Math.random].  The
    accumulator fields do not exist yet: the layout assigns them before it
    reads them. *)
Definition initNode (rand : nat -> T) (i : nat) (r : RawNode) : Node T :=
  {| name := raw_name r; group := raw_group r; id := i;
     x := ((rand (3 * i)%nat - lit_0_5) * lit_40)%num;
     y := ((rand (3 * i + 1)%nat - lit_0_5) * lit_40)%num;
     z := ((rand (3 * i + 2)%nat - lit_0_5) * lit_40)%num;
     vx := lit_0; vy := lit_0; vz := lit_0;
     fx := lit_0; fy := lit_0; fz := lit_0 |}.

(** [new Float32Array([a, b, c])] *)
Definition float32 (p : T * T * T) : T * T * T :=
  let '(a, b, c) := p in (nfround a, nfround b, nfround c).

(** The first [forEach] of [createNetworkVisualization]: one line per edge,
    its two ends stored in a [Float32Array]; an edge that names no node
    throws on [source.x]. *)
Fixpoint createLines (ns : list (Node T)) (es : list Edge) (ls : list Line)
  : Outcome (list Line) :=
  match es with
  | [] => Normal ls
  | e :: es' =>
      match node_at ns (source e), node_at ns (target e) with
      | Some s, Some t =>
          createLines ns es'
            (ls ++ [{| line_from := float32 (x s, y s, z s);
                       line_to := float32 (x t, y t, z t) |}])
      | _, _ => Throw ls
      end
  end.

(** The second [forEach]: the sphere of one node. *)
Definition createSphere (n : Node T) : Mesh :=
  let color := groupColor (group n) in
  {| mesh_position := (x n, y n, z n);
     userData := {| ud_name := name n; ud_group := group n;
                    originalColor := color; originalScale := 1%float |};
     color := materialColor color;
     scale := 1%float |}.

Definition createNetworkVisualization (w : World) : Outcome World :=
  match createLines (nodes (graph w)) (edges (graph w)) (edgeObjects w) with
  | Normal ls =>
      Normal (set_objects w (nodeObjects w ++ (createSphere <$> nodes (graph w))) ls)
  | Throw ls => Throw (set_objects w (nodeObjects w) ls)
  end.

(** [loadNetworkData], from the parsed response on: the [try] block and its
    [catch]. *)
Definition loadNetworkData (data : RawData) (rand : nat -> T) (w : World) : World :=
  let g := {| nodes := imap (initNode rand) (data_nodes data); edges := data_links data |} in
  match applyForceLayout g with
  | Normal g' =>
      match createNetworkVisualization (set_graph w g') with
      | Normal w' => w'
      | Throw w' => console_error w' "Error loading network data:"
      end
  | Throw g' => console_error (set_graph w g') "Error loading network data:"
  end.

(** *** Hover *)

(** [intersects.length > 0 ? intersects[0].object : nothing] *)
Definition pick (hits : list Intersection) : option nat :=
  match hits with
  | [] => None
  | hit :: _ => Some (object hit)
  end.

Definition restore (m : Mesh) : Mesh :=
  {| mesh_position := mesh_position m; userData := userData m;
     color := setHex (originalColor (userData m));
     scale := originalScale (userData m) |}.

Definition highlight (m : Mesh) : Mesh :=
  {| mesh_position := mesh_position m; userData := userData m;
     color := setHex (hoverColor variant (originalColor (userData m)));
     scale := hoverScale variant |}.

Definition hide (t : Tooltip) : Tooltip :=
  {| display := DisplayNone; innerHTML := innerHTML t; left := left t; top := top t |}.

(** "Reset previous hover state" *)
Definition resetHover (w : World) : World :=
  match hoveredNode w with
  | Some h =>
      {| graph := graph w;
         nodeObjects := alter restore h (nodeObjects w);
         edgeObjects := edgeObjects w;
         hoveredNode := None;
         tooltip := hide (tooltip w);
         cursor := cursor w;
         console := console w;
         actions := actions w ++ [HighlightReverted h; TooltipHidden] |}
  | None => w
  end.

(** "Handle new hover" *)
Definition handleHover (ev : MouseEvent) (w : World) : World :=
  match pick (intersects ev) with
  | Some o =>
      {| graph := graph w;
         nodeObjects := alter highlight o (nodeObjects w);
         edgeObjects := edgeObjects w;
         hoveredNode := Some o;
         tooltip := {| display := DisplayBlock;
                       innerHTML := (fun m => (ud_name (userData m), ud_group (userData m)))
                                      <$> nodeObjects w !! o;
                       left := Some (clientX ev + tooltipDx variant)%Z;
                       top := Some (clientY ev - 10)%Z |};
         cursor := CursorPointer;
         console := console w;
         actions := actions w ++ [HighlightApplied o; TooltipShown o] |}
  | None =>
      {| graph := graph w; nodeObjects := nodeObjects w; edgeObjects := edgeObjects w;
         hoveredNode := hoveredNode w; tooltip := tooltip w;
         cursor := CursorDefault;
         console := console w; actions := actions w |}
  end.

Definition onMouseMove (w : World) (ev : MouseEvent) : World :=
  handleHover ev (resetHover w).

End Scene.

Arguments Mesh T : clear implicits.
Arguments Line T : clear implicits.
Arguments World T : clear implicits.

(** ** Notions used to state the properties of the hover handler *)

Section HoverNotions.
Context {T : Type} `{Number T}.
Variable variant : Variant.

(** A body in the visual state a revert leaves it in: [setHex] of the
    stored original colour, and the stored original scale. *)
Definition pristine (m : Mesh T) : Prop :=
  color m = setHex (originalColor (userData m)) /\ scale m = originalScale (userData m).

(** Every node's group has an entry in the palette. *)
Definition palette_covers (ns : list (Node T)) : Prop :=
  Forall (fun n => is_Some (groupColor variant (group n))) ns.

(** A body in highlighted visual state: its colour or its scale is not
    what a revert sets. *)
Definition highlighted (m : Mesh T) : Prop := ~ pristine m.

(** Every body but the hovered one is in its original visual state. *)
Definition calm (w : World T) : Prop :=
  forall k m, nodeObjects w !! k = Some m -> hoveredNode w <> Some k -> pristine m.

(** The scene as [createNetworkVisualization] leaves it. *)
Definition created (g : Graph T) : World T :=
  outcome_state (createNetworkVisualization variant (set_graph initial_world g)).

End HoverNotions.

(** ** The rest of the module: start-up, pointer coordinates, rotation *)

Definition is_highlight_revert (a : Action) : bool :=
  match a with HighlightReverted _ => true | _ => false end.

(** The number of highlight reverts among some actions. *)
Definition highlight_reverts (acts : list Action) : nat :=
  length (List.filter is_highlight_revert acts).

Section Startup.
Context {T : Type} `{Number T}.
Variable variant : Variant.

(** One coordinate of a position or of a velocity. *)
Definition pos_of (ax : Axis) (n : Node T) : T :=
  match ax with AxisX => x n | AxisY => y n | AxisZ => z n end.

Definition vel_of (ax : Axis) (n : Node T) : T :=
  match ax with AxisX => vx n | AxisY => vy n | AxisZ => vz n end.

(** The two counts the info panel interpolates into its text,
    [nodes.length] and [edges.length]. *)
Definition infoPanel (w : World T) : nat * nat :=
  (length (nodes (graph w)), length (edges (graph w))).

(** The tail of the module in statement order: the info panel is filled
    in, then [loadNetworkData] is called. *)
Definition startup (data : RawData) (rand : nat -> T) : (nat * nat) * World T :=
  let info := infoPanel initial_world in
  (info, loadNetworkData variant data rand initial_world).

End Startup.

(** The further literals and the unary minus of the pointer and rotation
    code. *)
Class ViewNumber (T : Type) `{Number T} : Type := {
  lit_1 : T;            (* 1 *)
  lit_2 : T;            (* 2 *)
  lit_0_002 : T;        (* 0.002 *)
  lit_0_05 : T;         (* 0.05 *)
  nneg : T -> T
}.

#[export] Instance js_view_number : ViewNumber float := {
  lit_1 := 1%float;
  lit_2 := 2%float;
  lit_0_002 := 0x1.0624dd2f1a9fcp-9%float;
  lit_0_05 := 0x1.999999999999ap-5%float;
  nneg := PrimFloat.opp
}.

#[export] Instance real_view_number : ViewNumber R := {
  lit_1 := 1%R;
  lit_2 := 2%R;
  lit_0_002 := (2 / 1000)%R;
  lit_0_05 := (5 / 100)%R;
  nneg := Ropp
}.

Section Pointer.
Context {T : Type} `{ViewNumber T}.

(** [mouse.x] and [mouse.y] as [onMouseMove] computes them from the event
    and the window size. *)
Definition pointerNDC (clientX clientY innerWidth innerHeight : T) : T * T :=
  (((clientX / innerWidth) * lit_2 - lit_1)%num,
   (nneg (clientY / innerHeight) * lit_2 + lit_1)%num).

(** The rotation state of the sibling variant. *)
Record Rotation : Type := mkRotation {
  mouseX : T; mouseY : T;
  targetRotationX : T; targetRotationY : T;
  rotationX : T; rotationY : T
}.

(** "Update rotation controls", the head of the sibling's [onMouseMove]. *)
Definition steer (clientX clientY innerWidth innerHeight : T) (r : Rotation) : Rotation :=
  let mx := (clientX - innerWidth / lit_2)%num in
  let my := (clientY - innerHeight / lit_2)%num in
  {| mouseX := mx; mouseY := my;
     targetRotationX := (my * lit_0_002)%num;
     targetRotationY := (mx * lit_0_002)%num;
     rotationX := rotationX r; rotationY := rotationY r |}.

(** "Smooth rotation based on mouse movement", one frame of the sibling's
    [animate]. *)
Definition animateRotation (r : Rotation) : Rotation :=
  {| mouseX := mouseX r; mouseY := mouseY r;
     targetRotationX := targetRotationX r; targetRotationY := targetRotationY r;
     rotationX := (rotationX r + (targetRotationX r - rotationX r) * lit_0_05)%num;
     rotationY := (rotationY r + (targetRotationY r - rotationY r) * lit_0_05)%num |}.

End Pointer.

Arguments Rotation T : clear implicits.

(** ** The pick resolver *)

(** The comparison the resolver needs, [a < b]. *)
Class Ordered (T : Type) `{Number T} : Type := {
  nltb : T -> T -> bool
}.

#[export] Instance js_ordered : Ordered float := {
  nltb := PrimFloat.ltb
}.

#[export] Instance real_ordered : Ordered R := {
  nltb := fun a b => if Rlt_dec a b then true else false
}.

(** What the minimality argument asks of the comparison: it is asymmetric,
    and "not greater" is transitive. *)
Class OrderLaws (T : Type) `{Ordered T} : Prop := {
  nltb_asym : forall a b : T, nltb a b = true -> nltb b a = false;
  nltb_trans : forall a b c : T, nltb b a = false -> nltb c b = false -> nltb c a = false
}.

Section Resolver.
Context {T : Type} `{Ordered T}.

(** A ray: origin and direction. *)
Record Ray : Type := mkRay {
  origin : T * T * T;
  direction : T * T * T
}.

(** A pickable body, as far as picking goes: the position of its sphere and
    the radius of the sphere. *)
Record Body : Type := mkBody {
  center : T * T * T;
  radius : T
}.

(** One entry of the raycaster's result. *)
Record Hit : Type := mkHit {
  hit_distance : T;
  hit_object : nat          (* the body, as its index among the bodies *)
}.

Definition dot (a b : T * T * T) : T :=
  let '(a1, a2, a3) := a in
  let '(b1, b2, b3) := b in
  (a1 * b1 + a2 * b2 + a3 * b3)%num.

Definition vsub (a b : T * T * T) : T * T * T :=
  let '(a1, a2, a3) := a in
  let '(b1, b2, b3) := b in
  ((a1 - b1)%num, (a2 - b2)%num, (a3 - b3)%num).

(** The point of the ray at parameter [t]. *)
Definition ray_at (ray : Ray) (t : T) : T * T * T :=
  let '(o1, o2, o3) := origin ray in
  let '(d1, d2, d3) := direction ray in
  ((o1 + t * d1)%num, (o2 + t * d2)%num, (o3 + t * d3)%num).

(** The point lies on the sphere of the body. *)
Definition on_sphere (p : T * T * T) (b : Body) : Prop :=
  dot (vsub p (center b)) (vsub p (center b)) = (radius b * radius b)%num.

(** Modelled from the spec: the ray parameter at which a ray meets the
    sphere of influence of a body, if it does.  This is the raycaster's part
    of the Spatial Pick Resolver (three.js, not in the repository); the
    computation is the usual one for a ray and a sphere. *)
Definition ray_parameter (ray : Ray) (b : Body) : option T :=
  let v := vsub (center b) (origin ray) in
  let tca := dot v (direction ray) in
  let d2 := (dot v v - tca * tca)%num in
  let radius2 := (radius b * radius b)%num in
  if nltb radius2 d2 then None
  else
    let thc := nsqrt (radius2 - d2)%num in
    let t0 := (tca - thc)%num in
    let t1 := (tca + thc)%num in
    if nltb t1 lit_0 then None
    else if nltb t0 lit_0 then Some t1
    else Some t0.

(** Modelled from the spec: bodies are tested independently, in their
    order; the body at index [k + j] contributes a hit when the ray meets
    it. *)
Fixpoint hits_from (k : nat) (ray : Ray) (bodies : list Body) : list Hit :=
  match bodies with
  | [] => []
  | b :: bs =>
      match ray_parameter ray b with
      | Some t => {| hit_distance := t; hit_object := k |} :: hits_from (Datatypes.S k) ray bs
      | None => hits_from (Datatypes.S k) ray bs
      end
  end.

Fixpoint insertHit (h : Hit) (l : list Hit) : list Hit :=
  match l with
  | [] => [h]
  | y :: l' =>
      if nltb (hit_distance y) (hit_distance h) then y :: insertHit h l'
      else h :: y :: l'
  end.

(** [b] is not closer than [a]. *)
Definition not_closer (a b : Hit) : Prop := nltb (hit_distance b) (hit_distance a) = false.

(** Modelled from the spec: the hits sorted by distance, closest first
    (the documented result of the raycaster's [intersectObjects]). *)
Definition intersectObjects (ray : Ray) (bodies : list Body) : list Hit :=
  foldr insertHit [] (hits_from 0 ray bodies).

(** [resolve(ray, bodies)]: the raycaster's result, of which [onMouseMove]
    takes [intersects[0].object] when [intersects.length > 0]. *)
Definition resolve (ray : Ray) (bodies : list Body) : option nat :=
  match intersectObjects ray bodies with
  | [] => None
  | hit :: _ => Some (hit_object hit)
  end.

End Resolver.

Arguments Ray T : clear implicits.
Arguments Body T : clear implicits.
Arguments Hit T : clear implicits.

(** A hit as the handler reads it. *)
Definition to_intersection (h : Hit float) : Intersection :=
  {| distance := hit_distance h; object := hit_object h |}.

(** In exact arithmetic: the ray first meets the sphere of [b] at parameter
    [t]. *)
Definition first_meeting (ray : Ray R) (b : Body R) (t : R) : Prop :=
  (0 <= t)%R
  /\ on_sphere (ray_at ray t) b
  /\ forall t', (0 <= t')%R -> on_sphere (ray_at ray t') b -> (t <= t')%R.

Section HoverStates.
Context {T : Type} `{Number T}.
Variable variant : Variant.

(** The bodies are those of [objs] with the hovered one highlighted. *)
Definition shows (objs : list (Mesh T)) (w : World T) : Prop :=
  nodeObjects w
  = match hoveredNode w with
    | Some o => alter (highlight variant) o objs
    | None => objs
    end.

(** The tooltip is visible, and the cursor a pointer, exactly when a body
    is hovered. *)
Definition signals (w : World T) : Prop :=
  (display (tooltip w) = DisplayBlock <-> hoveredNode w <> None)
  /\ (cursor w = CursorPointer <-> hoveredNode w <> None).

(** What the handler leaves alone. *)
Definition backdrop (w : World T)
  : Graph T * list (Line T) * list string * list (T * T * T) * list UserData :=
  (graph w, edgeObjects w, console w,
   mesh_position <$> nodeObjects w, userData <$> nodeObjects w).

(** Every highlight but that of the hovered body has been reverted. *)
Definition balanced (w : World T) : Prop :=
  highlight_applies (actions w)
  = (highlight_reverts (actions w) + match hoveredNode w with Some _ => 1 | None => 0 end)%nat.

End HoverStates.

(** ** Sample data *)

(** Two nodes apart from each other, in binary64. *)
Definition nodeA : Node float :=
  mkNode "A" 0 0 1%float 2%float 3%float 0%float 0%float 0%float 0%float 0%float 0%float.
Definition nodeB : Node float :=
  mkNode "B" 1 1 (-4)%float 5%float (-6)%float 0%float 0%float 0%float 0%float 0%float 0%float.

(** Results of [Math.random], in call order. *)
Definition sample_random (k : nat) : float :=
  nth k [0.25; 0.75; 0.5; 0.125; 0.875; 0.375]%float 0.5%float.

(** Raw data with a self-edge on the second node. *)
Definition self_edge_data : RawData :=
  {| data_nodes := [mkRawNode "A" 0; mkRawNode "B" 1];
     data_links := [mkEdge 0 1; mkEdge 1 1] |}.

(** Raw data whose second link names a node that does not exist. *)
Definition dangling_data : RawData :=
  {| data_nodes := [mkRawNode "A" 0; mkRawNode "B" 1];
     data_links := [mkEdge 0 1; mkEdge 0 5] |}.

Definition two_node_graph : Graph float :=
  {| nodes := [nodeA; nodeB]; edges := [mkEdge 0 1] |}.

(** The same two nodes in exact arithmetic, with an edge and a self-edge. *)
Definition exact_graph : Graph R :=
  {| nodes := [mkNode "A" 0 0 1%R 2%R 3%R 0%R 0%R 0%R 0%R 0%R 0%R;
               mkNode "B" 1 1 (-4)%R 5%R (-6)%R 0%R 0%R 0%R 0%R 0%R 0%R];
     edges := [mkEdge 0 1; mkEdge 1 1] |}.

(** The scene of [two_node_graph], and a pointer position whose ray meets
    body 0 at distance 5 and body 1 at distance 10. *)
Definition hover_scene : World float := created (index_js blend_white) two_node_graph.

Definition over_both : MouseEvent :=
  {| clientX := 100; clientY := 80;
     intersects := [mkIntersection 5%float 0; mkIntersection 10%float 1] |}.

(** Raw data of three records and one link, all in range. *)
Definition sound_data : RawData :=
  {| data_nodes := [mkRawNode "A" 0; mkRawNode "B" 0; mkRawNode "C" 1];
     data_links := [mkEdge 0 1] |}.

(** Results of [Math.random] as reals. *)
Definition exact_random (k : nat) : R :=
  nth k [(1 / 4)%R; (3 / 4)%R; (1 / 2)%R; (1 / 8)%R; (7 / 8)%R; (3 / 8)%R] (1 / 2)%R.

(** A pointer position that meets no body, and one that meets body 1 only. *)
Definition over_nothing : MouseEvent :=
  {| clientX := 10; clientY := 20; intersects := [] |}.

Definition over_second : MouseEvent :=
  {| clientX := 300; clientY := 40; intersects := [mkIntersection 7%float 1] |}.


(** [two_node_graph] with a second edge that names no node, and with
    accumulators that hold other values. *)
Definition dangling_graph : Graph float :=
  {| nodes := [nodeA; nodeB]; edges := [mkEdge 0 1; mkEdge 0 5] |}.

Definition stale_graph : Graph float :=
  {| nodes := [set_force nodeA 7%float 8%float 9%float;
               set_force nodeB (-1)%float nan infinity];
     edges := [mkEdge 0 1] |}.

(** The two nodes of [exact_graph]. *)
Definition exactA : Node R := mkNode "A" 0 0 1%R 2%R 3%R 0%R 0%R 0%R 0%R 0%R 0%R.
Definition exactB : Node R := mkNode "B" 1 1 (-4)%R 5%R (-6)%R 0%R 0%R 0%R 0%R 0%R 0%R.

(** A ray along the z axis and two unit spheres on it, the farther one
    listed first: the ray enters them at parameters 10 and 5.  In exact
    arithmetic and in binary64. *)
Definition ray_z : Ray R := mkRay (0, 0, 0)%R (0, 0, 1)%R.
Definition far_body : Body R := mkBody (0, 0, 11)%R 1%R.
Definition near_body : Body R := mkBody (0, 0, 6)%R 1%R.

Definition ray_z64 : Ray float := mkRay (0, 0, 0)%float (0, 0, 1)%float.
Definition far_body64 : Body float := mkBody (0, 0, 11)%float 1%float.
Definition near_body64 : Body float := mkBody (0, 0, 6)%float 1%float.

(** A pointer-move event whose ray is [ray_z64], over those two bodies. *)
Definition over_far_and_near : MouseEvent :=
  {| clientX := 400; clientY := 300;
     intersects := to_intersection <$> intersectObjects ray_z64 [far_body64; near_body64] |}.

(** A graph with one node whose group has no palette entry, and a pointer
    position over that node. *)
Definition unlisted_graph : Graph float :=
  {| nodes := [mkNode "Z" (-1) 0 1%float 2%float 3%float
                 0%float 0%float 0%float 0%float 0%float 0%float];
     edges := [] |}.

Definition over_first : MouseEvent :=
  {| clientX := 50; clientY := 60; intersects := [mkIntersection 3%float 0] |}.

(** Two nodes at coordinates that binary32 does not hold exactly:
    (0.1, 0.2, 0.3) and (-0.7, 16777217, 0.5). *)
Definition offgrid_graph : Graph float :=
  {| nodes := [mkNode "P" 0 0 0x1.999999999999ap-4%float 0x1.999999999999ap-3%float
                 0x1.3333333333333p-2%float 0%float 0%float 0%float 0%float 0%float 0%float;
               mkNode "Q" 1 1 (-0x1.6666666666666p-1)%float 16777217%float 0.5%float
                 0%float 0%float 0%float 0%float 0%float 0%float];
     edges := [mkEdge 0 1] |}.

(** * Properties *)

#[export] Instance real_exact : ExactNumber R.
Proof.
  split; intros; cbn; lra.
Qed.

(** ** Loops as folds *)

Lemma for_range_foldl {S : Type} (body : nat -> S -> S) (count start : nat) (s : S) :
  for_range count start body s = foldl (fun a k => body k a) s (seq start count).
Proof.
  revert start s; induction count as [|c IH]; intros start s; cbn; [reflexivity|].
  apply IH.
Qed.

Lemma for_range_S {S : Type} (body : nat -> S -> S) (count start : nat) (s : S) :
  for_range (Datatypes.S count) start body s
  = for_range count (Datatypes.S start) body (body start s).
Proof. reflexivity. Qed.

Lemma for_loop_foldl {S : Type} (body : nat -> S -> S) (lo hi : nat) (s : S) :
  for_loop lo hi body s = foldl (fun a k => body k a) s (seq lo (hi - lo)).
Proof. unfold for_loop. apply for_range_foldl. Qed.

(** An invariant of the body is an invariant of the loop. *)
Lemma for_range_invariant {S : Type} (P : S -> Prop) (body : nat -> S -> S) :
  (forall k s, P s -> P (body k s)) ->
  forall count start s, P s -> P (for_range count start body s).
Proof.
  intros Hbody count; induction count as [|c IH]; intros start s Hs; cbn; auto.
Qed.

Lemma for_loop_invariant {S : Type} (P : S -> Prop) (body : nat -> S -> S) lo hi s :
  (forall k s, P s -> P (body k s)) -> P s -> P (for_loop lo hi body s).
Proof. intros Hbody Hs. unfold for_loop. apply for_range_invariant; assumption. Qed.

(** ** What the layout leaves alone *)

Section Frame.
Context {T : Type} `{Number T}.

Lemma kinematics_set_force (n : Node T) a b c : kinematics (set_force n a b c) = kinematics n.
Proof. reflexivity. Qed.

Lemma kinematics_add_force v (n : Node T) : kinematics (add_force v n) = kinematics n.
Proof. destruct v as [[a b] c]. reflexivity. Qed.

Lemma kinematics_sub_force v (n : Node T) : kinematics (sub_force v n) = kinematics n.
Proof. destruct v as [[a b] c]. reflexivity. Qed.

Lemma identity_kinematics (n m : Node T) : kinematics n = kinematics m -> identity n = identity m.
Proof. unfold kinematics, identity. intros E. injection E as -> -> -> _ _. reflexivity. Qed.

Lemma identity_integrateNode (n : Node T) : identity (integrateNode n) = identity n.
Proof. reflexivity. Qed.

(** Altering one element by a function that keeps a projection keeps the
    projection of the whole list. *)
Lemma fmap_alter_keep {A B : Type} (p : A -> B) (f : A -> A) (i : nat) (l : list A) :
  (forall a, p (f a) = p a) -> p <$> alter f i l = p <$> l.
Proof.
  intros Hf. revert i; induction l as [|a l IH]; intros [|i]; cbn; try reflexivity.
  - now rewrite Hf.
  - f_equal. apply IH.
Qed.

Lemma kinematics_resetForces (ns : list (Node T)) : kinematics <$> resetForces ns = kinematics <$> ns.
Proof.
  unfold resetForces. induction ns as [|n ns IH]; cbn; [reflexivity|].
  now rewrite IH.
Qed.

Lemma kinematics_repelPair i j (ns : list (Node T)) : kinematics <$> repelPair i j ns = kinematics <$> ns.
Proof.
  unfold repelPair. destruct (ns !! i); [|reflexivity]. destruct (ns !! j); [|reflexivity].
  cbn zeta. rewrite !fmap_alter_keep; auto using kinematics_add_force, kinematics_sub_force.
Qed.

Lemma kinematics_repulsion (ns : list (Node T)) : kinematics <$> repulsion ns = kinematics <$> ns.
Proof.
  unfold repulsion.
  apply (for_loop_invariant (fun s => kinematics <$> s = kinematics <$> ns)); [|reflexivity].
  intros i s Hs.
  apply (for_loop_invariant (fun s => kinematics <$> s = kinematics <$> ns)); [|exact Hs].
  intros j s' Hs'. now rewrite kinematics_repelPair.
Qed.

Lemma kinematics_attractEdge e (ns : list (Node T)) :
  kinematics <$> outcome_state (attractEdge e ns) = kinematics <$> ns.
Proof.
  unfold attractEdge. destruct (node_at ns (source e)); [|reflexivity].
  destruct (node_at ns (target e)); [|reflexivity].
  cbn. rewrite !fmap_alter_keep; auto using kinematics_add_force, kinematics_sub_force.
Qed.

Lemma kinematics_attraction es (ns : list (Node T)) :
  kinematics <$> outcome_state (attraction es ns) = kinematics <$> ns.
Proof.
  revert ns; induction es as [|e es IH]; intros ns; cbn; [reflexivity|].
  pose proof (kinematics_attractEdge e ns) as He.
  destruct (attractEdge e ns) as [ns'|ns']; cbn in *; [|exact He].
  now rewrite IH.
Qed.

Lemma identity_of_kinematics (ns ms : list (Node T)) :
  kinematics <$> ns = kinematics <$> ms -> identity <$> ns = identity <$> ms.
Proof.
  revert ms; induction ns as [|n ns IH]; intros [|m ms]; cbn; try discriminate; auto.
  intros E. injection E as E1 E2. f_equal; [unfold identity; congruence|now apply IH].
Qed.

Lemma identity_integrate (ns : list (Node T)) : identity <$> integrate ns = identity <$> ns.
Proof.
  unfold integrate. induction ns as [|n ns IH]; cbn; [reflexivity|].
  now rewrite IH.
Qed.

(** One iteration, however it ends, keeps the identities and the edges. *)
Lemma layoutIteration_frame (g : Graph T) :
  identity <$> nodes (outcome_state (layoutIteration g)) = identity <$> nodes g
  /\ edges (outcome_state (layoutIteration g)) = edges g.
Proof.
  unfold layoutIteration.
  pose proof (kinematics_attraction (edges g) (repulsion (resetForces (nodes g)))) as Ha.
  rewrite kinematics_repulsion, kinematics_resetForces in Ha.
  apply identity_of_kinematics in Ha.
  destruct (attraction _ _) as [ns|ns]; cbn in *; split; try reflexivity; try exact Ha.
  now rewrite identity_integrate.
Qed.

End Frame.

(** However the layout ends, it keeps the identities and the edges. *)
Lemma applyForceLayout_keeps {T : Type} `{Number T} (g : Graph T) :
  identity <$> nodes (outcome_state (applyForceLayout g)) = identity <$> nodes g
  /\ edges (outcome_state (applyForceLayout g)) = edges g.
Proof.
  unfold applyForceLayout.
  apply (for_loop_invariant (fun o =>
    identity <$> nodes (outcome_state o) = identity <$> nodes g
    /\ edges (outcome_state o) = edges g)); [|split; reflexivity].
  intros _ [a|a] [Hn He]; cbn in *; [|split; assumption].
  destruct (layoutIteration_frame a) as [Hn' He'].
  split; congruence.
Qed.

(** C10: the layout assigns only to position, velocity and force fields.
    However [applyForceLayout] ends (normally or by a throw), the [name],
    [group] and [id] of every node, in order, and the whole [edges] array
    are what they were before the call. *)
Theorem applyForceLayout_frame {T : Type} `{Number T} (g : Graph T) :
  let g' := outcome_state (applyForceLayout g) in
  (fun n => (name n, group n, id n)) <$> nodes g'
    = (fun n => (name n, group n, id n)) <$> nodes g
  /\ length (nodes g') = length (nodes g)
  /\ edges g' = edges g.
Proof.
  cbn zeta. destruct (applyForceLayout_keeps g) as [Hn He].
  split; [exact Hn|]. split; [|exact He].
  apply (f_equal length) in Hn. now rewrite !length_fmap in Hn.
Qed.

(** ** Well-formed edges *)

Section Range.
Context {T : Type} `{Number T}.

Lemma node_at_Some (ns : list (Node T)) (i : Z) :
  (0 <= i < Z.of_nat (length ns))%Z -> exists n, node_at ns i = Some n.
Proof.
  intros Hi. unfold node_at.
  destruct (Z.ltb_spec i 0) as [Hneg|_]; [lia|].
  destruct (lookup_lt_is_Some_2 ns (Z.to_nat i)) as [n Hn]; [lia|].
  exists n. exact Hn.
Qed.

Lemma node_at_None (ns : list (Node T)) (i : Z) :
  ~ (0 <= i < Z.of_nat (length ns))%Z -> node_at ns i = None.
Proof.
  intros Hi. unfold node_at.
  destruct (Z.ltb_spec i 0) as [Hneg|Hpos]; [reflexivity|].
  apply lookup_ge_None_2. lia.
Qed.

Lemma length_of_kinematics (ns ms : list (Node T)) :
  kinematics <$> ns = kinematics <$> ms -> length ns = length ms.
Proof. intros E. apply (f_equal length) in E. now rewrite !length_fmap in E. Qed.

Lemma length_resetForces (ns : list (Node T)) : length (resetForces ns) = length ns.
Proof. apply length_of_kinematics, kinematics_resetForces. Qed.

Lemma length_repulsion (ns : list (Node T)) : length (repulsion ns) = length ns.
Proof. apply length_of_kinematics, kinematics_repulsion. Qed.

Lemma length_attraction es (ns : list (Node T)) :
  length (outcome_state (attraction es ns)) = length ns.
Proof. apply length_of_kinematics, kinematics_attraction. Qed.

Lemma length_integrate (ns : list (Node T)) : length (integrate ns) = length ns.
Proof. unfold integrate. apply length_map. Qed.

(** An edge inside the array is processed without a throw. *)
Lemma attractEdge_in_range e (ns : list (Node T)) :
  edge_in_range (length ns) e ->
  exists s t, node_at ns (source e) = Some s /\ node_at ns (target e) = Some t
    /\ attractEdge e ns =
         Normal (alter (sub_force (attractionForce s t)) (Z.to_nat (target e))
                   (alter (add_force (attractionForce s t)) (Z.to_nat (source e)) ns)).
Proof.
  intros [Hs Ht].
  destruct (node_at_Some ns _ Hs) as [s Es], (node_at_Some ns _ Ht) as [t Et].
  exists s, t. unfold attractEdge. rewrite Es, Et. auto.
Qed.

(** An edge outside the array throws and leaves the array as it is. *)
Lemma attractEdge_out_of_range e (ns : list (Node T)) :
  ~ edge_in_range (length ns) e -> attractEdge e ns = Throw ns.
Proof.
  intros Hno. unfold attractEdge.
  destruct (decide (0 <= source e < Z.of_nat (length ns))%Z) as [Hs|Hs].
  - destruct (decide (0 <= target e < Z.of_nat (length ns))%Z) as [Ht|Ht].
    + exfalso. apply Hno. split; assumption.
    + rewrite (node_at_None ns _ Ht). now destruct (node_at ns (source e)).
  - now rewrite (node_at_None ns _ Hs).
Qed.

Lemma attraction_in_range es (ns : list (Node T)) :
  Forall (edge_in_range (length ns)) es ->
  exists ns', attraction es ns = Normal ns' /\ length ns' = length ns.
Proof.
  revert ns; induction es as [|e es IH]; intros ns Hall; cbn.
  - exists ns. auto.
  - apply Forall_cons in Hall as [He Hes].
    destruct (attractEdge_in_range e ns He) as (s & t & _ & _ & ->).
    destruct (IH (alter (sub_force (attractionForce s t)) (Z.to_nat (target e))
                    (alter (add_force (attractionForce s t)) (Z.to_nat (source e)) ns)))
      as (ns' & E & L).
    + now rewrite !length_alter.
    + exists ns'. split; [exact E|]. now rewrite L, !length_alter.
Qed.

(** One edge outside the array makes the whole pass throw. *)
Lemma attraction_out_of_range es (ns : list (Node T)) :
  ~ Forall (edge_in_range (length ns)) es ->
  exists ns', attraction es ns = Throw ns' /\ length ns' = length ns.
Proof.
  revert ns; induction es as [|e es IH]; intros ns Hno; cbn.
  - exfalso. apply Hno. constructor.
  - destruct (decide (edge_in_range (length ns) e)) as [He|He].
    + destruct (attractEdge_in_range e ns He) as (s & t & _ & _ & ->).
      destruct (IH (alter (sub_force (attractionForce s t)) (Z.to_nat (target e))
                      (alter (add_force (attractionForce s t)) (Z.to_nat (source e)) ns)))
        as (ns' & E & L).
      * rewrite !length_alter. intros Hes. apply Hno. now constructor.
      * exists ns'. split; [exact E|]. now rewrite L, !length_alter.
    + rewrite (attractEdge_out_of_range e ns He). exists ns. auto.
Qed.

End Range.

(** ** The iteration count and the order of the passes *)

Section Iterations.
Context {T : Type} `{Number T}.

Lemma layoutIteration_relaxation (g : Graph T) :
  edges_in_range g ->
  exists ns', layoutIteration g = Normal {| nodes := ns'; edges := edges g |}
    /\ relaxation (edges g) (nodes g) ns' /\ length ns' = length (nodes g).
Proof.
  intros Hg. unfold layoutIteration.
  destruct (attraction_in_range (edges g) (repulsion (resetForces (nodes g)))) as (c & E & L).
  { now rewrite length_repulsion, length_resetForces. }
  rewrite E. exists (integrate c). split; [reflexivity|]. split.
  - exists (resetForces (nodes g)), (repulsion (resetForces (nodes g))), c. auto.
  - now rewrite length_integrate, L, length_repulsion, length_resetForces.
Qed.

Lemma layout_loop_relaxations (count start : nat) (g : Graph T) :
  edges_in_range g ->
  exists ns', for_range count start (fun _ o => andThen o layoutIteration) (Normal g)
              = Normal {| nodes := ns'; edges := edges g |}
    /\ nsteps (relaxation (edges g)) count (nodes g) ns'.
Proof.
  revert start g; induction count as [|c IH]; intros start g Hg; cbn.
  - exists (nodes g). split; [now destruct g|constructor].
  - destruct (layoutIteration_relaxation g Hg) as (ns1 & E1 & R1 & L1).
    rewrite E1.
    destruct (IH (Datatypes.S start) {| nodes := ns1; edges := edges g |}) as (ns' & E & R).
    + unfold edges_in_range in *. cbn. now rewrite L1.
    + exists ns'. split; [exact E|]. econstructor; [exact R1|exact R].
Qed.

End Iterations.

(** ** Pairwise repulsion *)

Section Repulsion.
Context {T : Type} `{Number T}.

Lemma repulsionForce_spec (ni nj : Node T) :
  repulsionForce ni nj = repulsion_vector (position ni) (position nj).
Proof. reflexivity. Qed.

Lemma position_of_kinematics (n m : Node T) :
  kinematics n = kinematics m -> position n = position m.
Proof. unfold kinematics, position. congruence. Qed.

Lemma lookup_of_kinematics (s ns : list (Node T)) k n :
  kinematics <$> s = kinematics <$> ns -> s !! k = Some n ->
  exists m, ns !! k = Some m /\ kinematics n = kinematics m.
Proof.
  intros E Hk.
  assert ((kinematics <$> ns) !! k = Some (kinematics n)) as Hm
    by (rewrite <- E, list_lookup_fmap, Hk; reflexivity).
  rewrite list_lookup_fmap in Hm. destruct (ns !! k) as [m|]; [|discriminate].
  exists m. split; [reflexivity|]. cbn in Hm. congruence.
Qed.

(** While the positions are those of [ns], the loop body pushes the pair
    apart by the vector of those positions. *)
Lemma repelPair_push_apart (ns s : list (Node T)) i j :
  kinematics <$> s = kinematics <$> ns ->
  repelPair i j s = push_apart i j (pair_vector ns i j) s.
Proof.
  intros E. unfold repelPair, pair_vector, push_apart.
  destruct (s !! i) as [ni|] eqn:Hi.
  - destruct (lookup_of_kinematics s ns i ni E Hi) as (mi & -> & Ki).
    destruct (s !! j) as [nj|] eqn:Hj.
    + destruct (lookup_of_kinematics s ns j nj E Hj) as (mj & -> & Kj).
      cbn zeta. rewrite repulsionForce_spec.
      now rewrite (position_of_kinematics _ _ Ki), (position_of_kinematics _ _ Kj).
    + assert (ns !! j = None) as ->; [|reflexivity].
      apply lookup_ge_None. apply length_of_kinematics in E. rewrite <- E.
      now apply lookup_ge_None.
  - assert (ns !! i = None) as ->; [|reflexivity].
    apply lookup_ge_None. apply length_of_kinematics in E. rewrite <- E.
    now apply lookup_ge_None.
Qed.

Lemma kinematics_push_apart i j v (s : list (Node T)) :
  kinematics <$> push_apart i j v s = kinematics <$> s.
Proof.
  destruct v as [v|]; cbn; [|reflexivity].
  rewrite !fmap_alter_keep; auto using kinematics_add_force, kinematics_sub_force.
Qed.

(** Two folds that agree wherever an invariant of the first holds. *)
Lemma foldl_ext_invariant {A B : Type} (P : A -> Prop) (f g : A -> B -> A) (l : list B) (a : A) :
  (forall s b, P s -> f s b = g s b) -> (forall s b, P s -> P (g s b)) -> P a ->
  foldl f a l = foldl g a l /\ P (foldl g a l).
Proof.
  intros Hfg Hg. revert a; induction l as [|b l IH]; intros a Ha; cbn; [auto|].
  rewrite (Hfg a b Ha). apply IH. now apply Hg.
Qed.

Lemma foldl_bind {A B C : Type} (f : A -> C -> A) (k : B -> list C) (l : list B) (a : A) :
  foldl f a (l ≫= k) = foldl (fun s b => foldl f s (k b)) a l.
Proof.
  revert a; induction l as [|b l IH]; intros a; cbn; [reflexivity|].
  now rewrite foldl_app, IH.
Qed.

(** The nested loops are one fold over [visited_pairs]. *)
Lemma repulsion_foldl (ns : list (Node T)) :
  repulsion ns = foldl (fun s p => repelPair p.1 p.2 s) ns (visited_pairs (length ns)).
Proof.
  unfold repulsion, visited_pairs. cbn zeta.
  rewrite for_loop_foldl, foldl_bind, Nat.sub_0_r.
  apply (foldl_ext_invariant (fun _ => True)); auto.
  intros s i _. now rewrite for_loop_foldl, foldl_fmap.
Qed.

Lemma visited_pairs_spec n i j :
  (i, j) ∈ visited_pairs n <-> (i < j < n)%nat.
Proof.
  unfold visited_pairs. rewrite list_elem_of_bind. split.
  - intros (i' & Hj & Hi). apply list_elem_of_fmap in Hj as (j' & E & Hj).
    injection E as -> ->. apply elem_of_seq in Hj. lia.
  - intros Hij. exists i. split.
    + apply list_elem_of_fmap. exists j. split; [reflexivity|]. apply elem_of_seq. lia.
    + apply elem_of_seq. lia.
Qed.

Lemma visited_pairs_NoDup n : NoDup (visited_pairs n).
Proof.
  unfold visited_pairs. apply NoDup_bind.
  - intros i1 i2 p _ _ H1 H2.
    apply list_elem_of_fmap in H1 as (j1 & -> & _).
    apply list_elem_of_fmap in H2 as (j2 & E & _). now injection E.
  - intros i _. apply NoDup_fmap; [|apply NoDup_seq]. intros a b E. now injection E.
  - apply NoDup_seq.
Qed.

End Repulsion.

(** ** The attraction pass *)

Section Attraction.
Context {T : Type} `{Number T}.

Lemma node_at_of_kinematics (s ns : list (Node T)) i n :
  kinematics <$> s = kinematics <$> ns -> node_at s i = Some n ->
  exists m, node_at ns i = Some m /\ kinematics n = kinematics m.
Proof.
  unfold node_at. destruct (i <? 0)%Z; [discriminate|]. apply lookup_of_kinematics.
Qed.

Lemma attractionForce_spec (s t : Node T) :
  attractionForce s t = attraction_vector (position s) (position t).
Proof. reflexivity. Qed.

Lemma kinematics_pull_together e v (s : list (Node T)) :
  kinematics <$> pull_together e v s = kinematics <$> s.
Proof.
  destruct v as [v|]; cbn; [|reflexivity].
  rewrite !fmap_alter_keep; auto using kinematics_add_force, kinematics_sub_force.
Qed.

(** While the positions are those of [ns], an edge in range pulls its two
    ends together by the vector of those positions. *)
Lemma attractEdge_pull_together (ns s : list (Node T)) e :
  kinematics <$> s = kinematics <$> ns ->
  edge_in_range (length s) e ->
  attractEdge e s = Normal (pull_together e (edge_vector ns e) s).
Proof.
  intros E He.
  destruct (attractEdge_in_range e s He) as (a & b & Ea & Eb & ->).
  destruct (node_at_of_kinematics s ns _ a E Ea) as (a' & Ea' & Ka).
  destruct (node_at_of_kinematics s ns _ b E Eb) as (b' & Eb' & Kb).
  unfold edge_vector. rewrite Ea', Eb'. cbn [pull_together].
  rewrite attractionForce_spec.
  now rewrite (position_of_kinematics _ _ Ka), (position_of_kinematics _ _ Kb).
Qed.

Lemma attraction_foldl_from (ns : list (Node T)) es (s : list (Node T)) :
  kinematics <$> s = kinematics <$> ns ->
  Forall (edge_in_range (length s)) es ->
  attraction es s = Normal (foldl (fun s' e => pull_together e (edge_vector ns e) s') s es).
Proof.
  revert s; induction es as [|e es IH]; intros s E Hes; cbn [attraction foldl];
    [reflexivity|].
  apply Forall_cons in Hes as [He Hes].
  rewrite (attractEdge_pull_together ns s e E He). apply IH.
  - now rewrite kinematics_pull_together.
  - pose proof (length_of_kinematics _ _ (kinematics_pull_together e (edge_vector ns e) s))
      as L.
    now rewrite L.
Qed.

End Attraction.

(** C7: on a graph whose edges all reference existing nodes the layout runs
    exactly 300 iterations, whatever the positions are (no convergence test),
    and ends normally.  Each iteration is, in this order: reset every
    accumulator to zero; pairwise repulsion, which for every pair [i < j]
    once adds the softened inverse-square vector to node [i] and subtracts it
    from node [j]; edge attraction, which for every edge in order adds
    [(delta / d) * (0.1 * d)] to its source and subtracts it from its target,
    [delta] the vector from source to target and [d] its length; then per
    node [velocity = (velocity + force) * 0.9] and [position += velocity]. *)
Theorem applyForceLayout_300_iterations {T : Type} `{Number T} (g : Graph T) :
  edges_in_range g ->
  (exists ns',
      applyForceLayout g = Normal {| nodes := ns'; edges := edges g |}
      /\ nsteps (relaxation (edges g)) 300 (nodes g) ns')
  /\ (forall ns : list (Node T),
        Forall (fun n => fx n = lit_0 /\ fy n = lit_0 /\ fz n = lit_0) (resetForces ns)
        /\ kinematics <$> resetForces ns = kinematics <$> ns)
  /\ (forall (ns : list (Node T)) k n, ns !! k = Some n ->
        exists n', integrate ns !! k = Some n'
          /\ vx n' = ((vx n + fx n) * lit_0_9)%num
          /\ vy n' = ((vy n + fy n) * lit_0_9)%num
          /\ vz n' = ((vz n + fz n) * lit_0_9)%num
          /\ x n' = (x n + vx n')%num
          /\ y n' = (y n + vy n')%num
          /\ z n' = (z n + vz n')%num
          /\ (name n', group n', id n') = (name n, group n, id n))
  /\ (forall ns : list (Node T),
        repulsion ns
        = foldl (fun s p =>
                   match pair_vector ns p.1 p.2 with
                   | Some v => alter (sub_force v) p.2 (alter (add_force v) p.1 s)
                   | None => s
                   end) ns (visited_pairs (length ns))
        /\ NoDup (visited_pairs (length ns))
        /\ (forall i j, (i, j) ∈ visited_pairs (length ns) <-> (i < j < length ns)%nat))
  /\ (forall (ns : list (Node T)) i j ni nj, ns !! i = Some ni -> ns !! j = Some nj ->
        pair_vector ns i j
        = Some (let d := (nsqrt ((x ni - x nj) * (x ni - x nj)
                                 + (y ni - y nj) * (y ni - y nj)
                                 + (z ni - z nj) * (z ni - z nj)) + lit_0_1)%num in
                let magnitude := (lit_1000 / (d * d))%num in
                (((x ni - x nj) / d) * magnitude,
                 ((y ni - y nj) / d) * magnitude,
                 ((z ni - z nj) / d) * magnitude)%num))
  /\ (forall (ns : list (Node T)) es, Forall (edge_in_range (length ns)) es ->
        attraction es ns
        = Normal (foldl (fun s e =>
                           match edge_vector ns e with
                           | Some v =>
                               alter (sub_force v) (Z.to_nat (target e))
                                 (alter (add_force v) (Z.to_nat (source e)) s)
                           | None => s
                           end) ns es))
  /\ (forall (ns : list (Node T)) e s t,
        node_at ns (source e) = Some s -> node_at ns (target e) = Some t ->
        edge_vector ns e
        = Some (let d := nsqrt ((x t - x s) * (x t - x s)
                                + (y t - y s) * (y t - y s)
                                + (z t - z s) * (z t - z s))%num in
                let magnitude := (lit_0_1 * d)%num in
                (((x t - x s) / d) * magnitude,
                 ((y t - y s) / d) * magnitude,
                 ((z t - z s) / d) * magnitude)%num))
  /\ (forall (n : Node T) a b c,
        (fx (add_force (a, b, c) n), fy (add_force (a, b, c) n), fz (add_force (a, b, c) n))
          = ((fx n + a)%num, (fy n + b)%num, (fz n + c)%num)
        /\ (fx (sub_force (a, b, c) n), fy (sub_force (a, b, c) n), fz (sub_force (a, b, c) n))
          = ((fx n - a)%num, (fy n - b)%num, (fz n - c)%num)
        /\ kinematics (add_force (a, b, c) n) = kinematics n
        /\ kinematics (sub_force (a, b, c) n) = kinematics n).
Proof.
  intros Hg. split; [|split; [|split; [|split; [|split; [|split; [|split]]]]]].
  - unfold applyForceLayout, for_loop. change (iterations - 0)%nat with 300%nat.
    apply layout_loop_relaxations, Hg.
  - intros ns. split; [|apply kinematics_resetForces].
    unfold resetForces. induction ns as [|n ns IH]; cbn; constructor; cbn; auto.
  - intros ns k n Hk. exists (integrateNode n). split.
    + unfold integrate. change (map integrateNode ns) with (integrateNode <$> ns).
      now rewrite list_lookup_fmap, Hk.
    + cbn. repeat split; reflexivity.
  - intros ns. split; [|split; [apply visited_pairs_NoDup|apply visited_pairs_spec]].
    rewrite repulsion_foldl.
    apply (foldl_ext_invariant (fun s => kinematics <$> s = kinematics <$> ns)).
    + intros s [i j] Hs. cbn [fst snd]. now apply repelPair_push_apart.
    + intros s [i j] Hs. cbn [fst snd].
      exact (eq_trans (kinematics_push_apart i j (pair_vector ns i j) s) Hs).
    + reflexivity.
  - intros ns i j ni nj Hi Hj. unfold pair_vector. rewrite Hi, Hj. reflexivity.
  - intros ns es Hes. now apply attraction_foldl_from.
  - intros ns e s t Hs Ht. unfold edge_vector. rewrite Hs, Ht. reflexivity.
  - intros n a b c. repeat split; reflexivity.
Qed.



(** ** Conservation of the total force *)

Section Conservation.
Context {T : Type} `{ExactNumber T}.

Lemma nadd_0_r (a : T) : (a + lit_0)%num = a.
Proof. rewrite nadd_comm. apply nadd_0_l. Qed.

Lemma nadd_cancel_r (a b c : T) : (a + c)%num = (b + c)%num -> a = b.
Proof.
  intros E.
  assert (forall u : T, ((u + c) + (lit_0 - c))%num = u) as Hinv.
  { intros u. rewrite <- nadd_assoc, (nadd_comm c), nsub_add. apply nadd_0_r. }
  rewrite <- (Hinv a), <- (Hinv b). now rewrite E.
Qed.

Lemma nadd_sub (a b : T) : ((a + b) - b)%num = a.
Proof. apply (nadd_cancel_r _ _ b). apply nsub_add. Qed.

Lemma total_alter_add (p : Node T -> T) (f : Node T -> Node T) (a : T) i ns :
  (forall n, p (f n) = (p n + a)%num) -> (i < length ns)%nat ->
  total p (alter f i ns) = (total p ns + a)%num.
Proof.
  intros Hf. revert i; induction ns as [|n ns IH]; intros [|i] Hi; cbn in *; try lia.
  - rewrite Hf. fold (total p ns).
    rewrite <- !nadd_assoc. f_equal. apply nadd_comm.
  - fold (total p ns). fold (total p (alter f i ns)).
    rewrite IH by lia. apply nadd_assoc.
Qed.

Lemma total_alter_sub (p : Node T -> T) (g : Node T -> Node T) (a : T) i ns :
  (forall n, (p (g n) + a)%num = p n) -> (i < length ns)%nat ->
  (total p (alter g i ns) + a)%num = total p ns.
Proof.
  intros Hg. revert i; induction ns as [|n ns IH]; intros [|i] Hi; cbn in *; try lia.
  - fold (total p ns).
    rewrite <- nadd_assoc, (nadd_comm (total p ns)), nadd_assoc. now rewrite Hg.
  - fold (total p ns). fold (total p (alter g i ns)).
    rewrite <- nadd_assoc. now rewrite IH by lia.
Qed.

(** Adding a value at one index and subtracting it at another, or at the
    same one, leaves the total as it was. *)
Lemma total_alter_add_sub (p : Node T -> T) (f g : Node T -> Node T) (a : T) i j ns :
  (forall n, p (f n) = (p n + a)%num) -> (forall n, (p (g n) + a)%num = p n) ->
  (i < length ns)%nat -> (j < length ns)%nat ->
  total p (alter g j (alter f i ns)) = total p ns.
Proof.
  intros Hf Hg Hi Hj. apply (nadd_cancel_r _ _ a).
  rewrite (total_alter_sub p g a) by (rewrite ?length_alter; auto).
  now apply total_alter_add.
Qed.

Lemma force_of_add_force ax v (n : Node T) :
  force_of ax (add_force v n) = (force_of ax n + coord_of ax v)%num.
Proof. destruct v as [[a b] c], ax; reflexivity. Qed.

Lemma force_of_sub_force ax v (n : Node T) :
  (force_of ax (sub_force v n) + coord_of ax v)%num = force_of ax n.
Proof. destruct v as [[a b] c], ax; cbn; apply nsub_add. Qed.

Lemma total_push ax v i j (ns : list (Node T)) :
  (i < length ns)%nat -> (j < length ns)%nat ->
  total (force_of ax) (alter (sub_force v) j (alter (add_force v) i ns))
  = total (force_of ax) ns.
Proof.
  apply (total_alter_add_sub _ _ _ (coord_of ax v));
    auto using force_of_add_force, force_of_sub_force.
Qed.

Lemma total_resetForces ax (ns : list (Node T)) :
  total (force_of ax) (resetForces ns) = lit_0.
Proof.
  unfold resetForces. induction ns as [|n ns IH]; cbn; [reflexivity|].
  fold (total (force_of ax) (map (fun n => set_force n lit_0 lit_0 lit_0) ns)).
  rewrite IH. destruct ax; cbn; apply nadd_0_l.
Qed.

Lemma total_repelPair ax i j (ns : list (Node T)) :
  total (force_of ax) (repelPair i j ns) = total (force_of ax) ns.
Proof.
  unfold repelPair.
  destruct (ns !! i) as [ni|] eqn:Hi; [|reflexivity].
  destruct (ns !! j) as [nj|] eqn:Hj; [|reflexivity].
  cbn zeta. apply total_push; eapply lookup_lt_Some; eassumption.
Qed.

Lemma total_repulsion ax (ns : list (Node T)) :
  total (force_of ax) (repulsion ns) = total (force_of ax) ns.
Proof.
  unfold repulsion.
  apply (for_loop_invariant (fun s => total (force_of ax) s = total (force_of ax) ns));
    [|reflexivity].
  intros i s Hs.
  apply (for_loop_invariant (fun s => total (force_of ax) s = total (force_of ax) ns));
    [|exact Hs].
  intros j s' Hs'. now rewrite total_repelPair.
Qed.

Lemma total_attraction ax es (ns : list (Node T)) :
  total (force_of ax) (outcome_state (attraction es ns)) = total (force_of ax) ns.
Proof.
  revert ns; induction es as [|e es IH]; intros ns; cbn; [reflexivity|].
  destruct (decide (edge_in_range (length ns) e)) as [He|He].
  - pose proof He as [Hs Ht].
    destruct (attractEdge_in_range e ns He) as (s & t & _ & _ & ->).
    rewrite IH. apply total_push; lia.
  - now rewrite (attractEdge_out_of_range e ns He).
Qed.

(** The object a self-edge names twice gets its accumulator back. *)
Lemma sub_add_force v (n : Node T) : sub_force v (add_force v n) = n.
Proof.
  destruct v as [[a b] c], n. unfold add_force, sub_force, set_force; cbn.
  now rewrite !nadd_sub.
Qed.

Lemma attractEdge_self e (ns : list (Node T)) :
  source e = target e -> edge_in_range (length ns) e -> attractEdge e ns = Normal ns.
Proof.
  intros Eq He. destruct (attractEdge_in_range e ns He) as (s & t & _ & _ & ->).
  rewrite Eq, list_alter_alter_eq. f_equal. apply list_alter_id.
  intros n. apply sub_add_force.
Qed.

End Conservation.

(** C9: in exact arithmetic (addition a commutative group, subtraction its
    inverse; any multiplication, division and square root), on a graph whose
    edges reference existing nodes, the accumulators after the reset,
    repulsion and attraction passes of an iteration sum to zero in each
    component; and a self-edge leaves every accumulator as it found it. *)
Theorem force_sum_zero {T : Type} `{ExactNumber T} (g : Graph T) :
  edges_in_range g ->
  (exists ns',
      attraction (edges g) (repulsion (resetForces (nodes g))) = Normal ns'
      /\ total fx ns' = lit_0 /\ total fy ns' = lit_0 /\ total fz ns' = lit_0)
  /\ (forall e (ns : list (Node T)),
        source e = target e -> edge_in_range (length ns) e -> attractEdge e ns = Normal ns).
Proof.
  intros Hg. split; [|intros e ns; apply attractEdge_self].
  destruct (attraction_in_range (edges g) (repulsion (resetForces (nodes g)))) as (ns' & E & _).
  { now rewrite length_repulsion, length_resetForces. }
  exists ns'. split; [exact E|].
  assert (forall ax, total (force_of ax) ns' = lit_0) as Hax.
  { intros ax.
    pose proof (total_attraction ax (edges g) (repulsion (resetForces (nodes g)))) as Ht.
    rewrite E in Ht. unfold outcome_state in Ht.
    now rewrite Ht, total_repulsion, total_resetForces. }
  split; [exact (Hax AxisX)|]. split; [exact (Hax AxisY)|exact (Hax AxisZ)].
Qed.

(** ** Loading data with a dangling edge *)

Section Loading.
Context {T : Type} `{Number T}.
Variable variant : Variant.

Lemma for_range_Throw {A : Type} (f : A -> Outcome A) count start (a : A) :
  for_range count start (fun _ o => andThen o f) (Throw a) = Throw a.
Proof. revert start; induction count as [|c IH]; intros start; cbn; auto. Qed.

(** A dangling edge makes the first iteration throw, and with it the
    layout. *)
Lemma applyForceLayout_out_of_range (g : Graph T) :
  ~ edges_in_range g -> exists g', applyForceLayout g = Throw g'.
Proof.
  intros Hg. unfold applyForceLayout, for_loop.
  change (iterations - 0)%nat with (Datatypes.S 299).
  rewrite for_range_S. change (andThen (Normal g) layoutIteration) with (layoutIteration g).
  unfold layoutIteration.
  destruct (attraction_out_of_range (edges g) (repulsion (resetForces (nodes g))))
    as (ns' & E & _).
  { now rewrite length_repulsion, length_resetForces. }
  rewrite E, for_range_Throw. eauto.
Qed.

Lemma identity_initNode rand (rs : list RawNode) :
  identity <$> imap (initNode rand) rs = imap (fun i r => (raw_name r, raw_group r, i)) rs.
Proof.
  rewrite fmap_imap. apply imap_ext. intros i r _. reflexivity.
Qed.

End Loading.

(** C5, as the code has it: when a link of the raw data names no node, the
    first layout iteration throws; [loadNetworkData] catches the error and
    logs it once, and creates no sphere and no line.  The module-level
    arrays stay assigned: [edges] still holds every link of the data,
    the dangling one included, and [nodes] holds one initialised node per
    raw record. *)
Theorem loadNetworkData_dangling_edge {T : Type} `{Number T}
    (variant : Variant) (data : RawData) (rand : nat -> T) (w : World T) :
  ~ Forall (edge_in_range (length (data_nodes data))) (data_links data) ->
  let w' := loadNetworkData variant data rand w in
  console w' = console w ++ ["Error loading network data:"]
  /\ nodeObjects w' = nodeObjects w
  /\ edgeObjects w' = edgeObjects w
  /\ edges (graph w') = data_links data
  /\ (fun n => (name n, group n, id n)) <$> nodes (graph w')
     = imap (fun i r => (raw_name r, raw_group r, i)) (data_nodes data).
Proof.
  intros Hbad. cbn zeta. unfold loadNetworkData.
  set (g := {| nodes := imap (initNode rand) (data_nodes data); edges := data_links data |}).
  destruct (applyForceLayout_keeps g) as [Hn He].
  destruct (applyForceLayout_out_of_range g) as (g' & E).
  { unfold edges_in_range, g. cbn. now rewrite length_imap. }
  rewrite E in *. cbn in *. repeat split; try reflexivity; try assumption.
  rewrite <- (identity_initNode rand). exact Hn.
Qed.

(** ** The hover state machine *)

Section Hover.
Context {T : Type} `{Number T}.
Variable variant : Variant.

Lemma restore_pristine (m : Mesh T) : pristine (restore m).
Proof. split; reflexivity. Qed.

Lemma userData_restore (m : Mesh T) : userData (restore m) = userData m.
Proof. reflexivity. Qed.

Lemma userData_highlight (m : Mesh T) : userData (highlight variant m) = userData m.
Proof. reflexivity. Qed.

Lemma highlight_restore (m : Mesh T) : highlight variant (restore m) = highlight variant m.
Proof. reflexivity. Qed.

Lemma highlight_highlight (m : Mesh T) :
  highlight variant (highlight variant m) = highlight variant m.
Proof. reflexivity. Qed.

(** After the reset block nothing is highlighted and nothing is hovered. *)
Lemma resetHover_calm (w : World T) :
  calm w ->
  hoveredNode (resetHover w) = None
  /\ forall k m, nodeObjects (resetHover w) !! k = Some m -> pristine m.
Proof.
  intros Hw. unfold resetHover. destruct (hoveredNode w) as [h|] eqn:Hh; cbn.
  - split; [reflexivity|]. intros k m Hk.
    destruct (decide (h = k)) as [->|Hne].
    + rewrite list_lookup_alter_eq in Hk.
      destruct (nodeObjects w !! k) as [m0|]; [|discriminate].
      injection Hk as <-. apply restore_pristine.
    + rewrite list_lookup_alter_ne in Hk by assumption.
      apply (Hw k m Hk). rewrite Hh. congruence.
  - split; [assumption|]. intros k m Hk. apply (Hw k m Hk). now rewrite Hh.
Qed.

Lemma handleHover_calm ev (w : World T) :
  (forall k m, nodeObjects w !! k = Some m -> pristine m) ->
  calm (handleHover variant ev w).
Proof.
  intros Hw k m. unfold handleHover. destruct (pick (intersects ev)) as [o|]; cbn.
  - intros Hk Hne. rewrite list_lookup_alter_ne in Hk by congruence. eauto.
  - intros Hk _. eauto.
Qed.

Lemma onMouseMove_calm (w : World T) ev : calm w -> calm (onMouseMove variant w ev).
Proof.
  intros Hw. unfold onMouseMove. apply handleHover_calm.
  now apply resetHover_calm.
Qed.

Lemma userData_resetHover (w : World T) :
  userData <$> nodeObjects (resetHover w) = userData <$> nodeObjects w.
Proof.
  unfold resetHover. destruct (hoveredNode w); cbn; [|reflexivity].
  now apply fmap_alter_keep.
Qed.

Lemma userData_handleHover ev (w : World T) :
  userData <$> nodeObjects (handleHover variant ev w) = userData <$> nodeObjects w.
Proof.
  unfold handleHover. destruct (pick (intersects ev)); cbn; [|reflexivity].
  now apply fmap_alter_keep.
Qed.

Lemma userData_onMouseMove (w : World T) ev :
  userData <$> nodeObjects (onMouseMove variant w ev) = userData <$> nodeObjects w.
Proof. unfold onMouseMove. now rewrite userData_handleHover, userData_resetHover. Qed.

(** Both facts hold along every sequence of events. *)
Lemma events_calm (evs : list MouseEvent) (w : World T) :
  calm w ->
  calm (foldl (onMouseMove variant) w evs)
  /\ userData <$> nodeObjects (foldl (onMouseMove variant) w evs) = userData <$> nodeObjects w.
Proof.
  revert w; induction evs as [|ev evs IH]; intros w Hw; cbn; [auto|].
  destruct (IH (onMouseMove variant w ev)) as [Hc Hu]; [now apply onMouseMove_calm|].
  split; [exact Hc|]. now rewrite Hu, userData_onMouseMove.
Qed.

(** A sphere whose group has a palette entry is created in the state a
    revert sets. *)
Lemma createSphere_pristine (n : Node T) :
  is_Some (groupColor variant (group n)) -> pristine (createSphere variant n).
Proof. intros [c Hc]. unfold pristine, createSphere. cbn. rewrite Hc. split; reflexivity. Qed.

Lemma created_spheres (g : Graph T) k m :
  palette_covers variant (nodes g) ->
  nodeObjects (created variant g) !! k = Some m -> pristine m.
Proof.
  intros Hpal. unfold created, createNetworkVisualization. cbn.
  destruct (createLines _ _ _); cbn; [|now rewrite lookup_nil].
  rewrite list_lookup_fmap. destruct (nodes g !! k) as [n|] eqn:En; [|discriminate].
  intros E. injection E as <-. apply createSphere_pristine.
  exact (proj1 (Forall_lookup _ _) Hpal k n En).
Qed.

Lemma created_calm (g : Graph T) : palette_covers variant (nodes g) -> calm (created variant g).
Proof.
  intros Hpal k m Hk _. exact (created_spheres g k m Hpal Hk).
Qed.

Lemma created_palette (g : Graph T) k m :
  palette_covers variant (nodes g) ->
  nodeObjects (created variant g) !! k = Some m -> is_Some (originalColor (userData m)).
Proof.
  intros Hpal. unfold created, createNetworkVisualization. cbn.
  destruct (createLines _ _ _); cbn; [|now rewrite lookup_nil].
  rewrite list_lookup_fmap. destruct (nodes g !! k) as [n|] eqn:En; [|discriminate].
  intros E. injection E as <-. cbn.
  exact (proj1 (Forall_lookup _ _) Hpal k n En).
Qed.

Lemma created_hoveredNode (g : Graph T) : hoveredNode (created variant g) = None.
Proof.
  unfold created, createNetworkVisualization. cbn. now destruct (createLines _ _ _).
Qed.

(** One event with a pick appends exactly these four actions when a body
    was hovered, and the last two otherwise. *)
Lemma onMouseMove_actions (w : World T) ev o :
  pick (intersects ev) = Some o ->
  actions (onMouseMove variant w ev)
  = actions w
    ++ match hoveredNode w with
       | Some h => [HighlightReverted h; TooltipHidden]
       | None => []
       end
    ++ [HighlightApplied o; TooltipShown o].
Proof.
  intros Hp. unfold onMouseMove, handleHover, resetHover. rewrite Hp.
  destruct (hoveredNode w); cbn; [|reflexivity].
  now rewrite <- app_assoc.
Qed.

Lemma onMouseMove_hoveredNode (w : World T) ev :
  hoveredNode (onMouseMove variant w ev) = pick (intersects ev).
Proof.
  unfold onMouseMove, handleHover, resetHover.
  destruct (pick (intersects ev)); cbn; [reflexivity|].
  destruct (hoveredNode w) eqn:E; cbn; [reflexivity|exact E].
Qed.

Lemma highlight_applies_app (a b : list Action) :
  highlight_applies (a ++ b) = (highlight_applies a + highlight_applies b)%nat.
Proof. unfold highlight_applies. now rewrite List.filter_app, length_app. Qed.

Lemma onMouseMove_applies (w : World T) ev o :
  pick (intersects ev) = Some o ->
  highlight_applies (actions (onMouseMove variant w ev))
  = (highlight_applies (actions w) + 1)%nat.
Proof.
  intros Hp. rewrite (onMouseMove_actions w ev o Hp), !highlight_applies_app.
  destruct (hoveredNode w); reflexivity.
Qed.

End Hover.

Lemma alter_fixed {A : Type} (f : A -> A) (i : nat) (l : list A) (a : A) :
  l !! i = Some a -> f a = a -> alter f i l = l.
Proof.
  intros Hi Hf. apply list_eq. intros k.
  destruct (decide (i = k)) as [<-|Hne].
  - now rewrite list_lookup_alter_eq, Hi; cbn; rewrite Hf.
  - now rewrite list_lookup_alter_ne.
Qed.

(** ** Picking *)

Section Sorting.
Context {T : Type} `{OrderLaws T}.

Lemma nltb_irrefl (a : T) : nltb a a = false.
Proof. destruct (nltb a a) eqn:E; [|reflexivity]. now rewrite (nltb_asym a a E) in E. Qed.

Lemma hits_from_spec k (ray : Ray T) (bodies : list (Body T)) (h : Hit T) :
  h ∈ hits_from k ray bodies <->
  exists j b, bodies !! j = Some b /\ ray_parameter ray b = Some (hit_distance h)
              /\ hit_object h = (k + j)%nat.
Proof.
  revert k; induction bodies as [|b bs IH]; intros k; cbn [hits_from].
  - split; [intros Hin; inversion Hin|intros (j & b & Hj & _); now rewrite lookup_nil in Hj].
  - assert (h ∈ hits_from (Datatypes.S k) ray bs <->
            exists j b', (b :: bs) !! Datatypes.S j = Some b'
                         /\ ray_parameter ray b' = Some (hit_distance h)
                         /\ hit_object h = (k + Datatypes.S j)%nat) as Htail.
    { rewrite IH. split; intros (j & b' & Hj & Hp & Ho); exists j, b';
        (split; [exact Hj|split; [exact Hp|lia]]). }
    destruct (ray_parameter ray b) as [t|] eqn:Eb.
    + rewrite elem_of_cons, Htail. split.
      * intros [->|(j & b' & Hj & Hp & Ho)].
        -- exists 0%nat, b. cbn. split; [reflexivity|]. split; [exact Eb|lia].
        -- exists (Datatypes.S j), b'. auto.
      * intros ([|j] & b' & Hj & Hp & Ho).
        -- left. cbn in Hj. injection Hj as <-. rewrite Eb in Hp. injection Hp as Hp.
           destruct h as [d o]. cbn in *. subst. f_equal. lia.
        -- right. exists j, b'. auto.
    + rewrite Htail. split.
      * intros (j & b' & Hj & Hp & Ho). exists (Datatypes.S j), b'. auto.
      * intros ([|j] & b' & Hj & Hp & Ho).
        -- cbn in Hj. injection Hj as <-. rewrite Eb in Hp. discriminate.
        -- exists j, b'. auto.
Qed.

Lemma insertHit_elem (h h' : Hit T) (l : list (Hit T)) :
  h' ∈ insertHit h l <-> h' = h \/ h' ∈ l.
Proof.
  induction l as [|y l IH]; cbn [insertHit].
  - rewrite list_elem_of_singleton. split; [auto|]. intros [E|E]; [exact E|inversion E].
  - destruct (nltb (hit_distance y) (hit_distance h)).
    + rewrite !elem_of_cons, IH. tauto.
    + rewrite !elem_of_cons. tauto.
Qed.

Lemma sorted_elem (l : list (Hit T)) (h' : Hit T) :
  h' ∈ foldr insertHit [] l <-> h' ∈ l.
Proof.
  induction l as [|h l IH]; cbn [foldr]; [reflexivity|].
  now rewrite insertHit_elem, elem_of_cons, IH.
Qed.

Lemma insertHit_sorted (h : Hit T) (l : list (Hit T)) :
  StronglySorted not_closer l -> StronglySorted not_closer (insertHit h l).
Proof.
  induction l as [|y l IH]; intros Hs; cbn [insertHit].
  - repeat constructor.
  - apply StronglySorted_inv in Hs as [Hl Hy].
    destruct (nltb (hit_distance y) (hit_distance h)) eqn:E.
    + constructor; [now apply IH|].
      apply Forall_forall. intros h' Hin. apply insertHit_elem in Hin as [->|Hin].
      * unfold not_closer. now apply nltb_asym.
      * exact (proj1 (Forall_forall _ _) Hy h' Hin).
    + constructor; [now constructor|].
      constructor; [exact E|].
      apply Forall_forall. intros h' Hin.
      pose proof (proj1 (Forall_forall _ _) Hy h' Hin) as Hyh. unfold not_closer in *.
      exact (nltb_trans _ _ _ E Hyh).
Qed.

Lemma sorted_sorted (l : list (Hit T)) : StronglySorted not_closer (foldr insertHit [] l).
Proof.
  induction l as [|h l IH]; cbn [foldr]; [constructor|]. now apply insertHit_sorted.
Qed.

(** The resolver, in terms of the ray parameters of the bodies. *)
Lemma resolve_least (ray : Ray T) (bodies : list (Body T)) :
  (resolve ray bodies = None <->
   forall k b, bodies !! k = Some b -> ray_parameter ray b = None)
  /\ (forall i, resolve ray bodies = Some i ->
        exists b t, bodies !! i = Some b /\ ray_parameter ray b = Some t
          /\ forall k b' t', bodies !! k = Some b' -> ray_parameter ray b' = Some t' ->
               nltb t' t = false).
Proof.
  unfold resolve, intersectObjects.
  pose proof (sorted_sorted (hits_from 0 ray bodies)) as Hsorted.
  pose proof (sorted_elem (hits_from 0 ray bodies)) as Helem.
  destruct (foldr insertHit [] (hits_from 0 ray bodies)) as [|hit rest].
  - split; [|intros i Hi; discriminate]. split; [|reflexivity].
    intros _ k b Hk. destruct (ray_parameter ray b) as [t|] eqn:Eb; [|reflexivity].
    exfalso.
    assert ({| hit_distance := t; hit_object := k |} ∈ hits_from 0 ray bodies) as Hin
      by (apply hits_from_spec; exists k, b; cbn; auto).
    apply Helem in Hin. inversion Hin.
  - assert (hit ∈ hits_from 0 ray bodies) as Hhit by (apply Helem; left).
    apply hits_from_spec in Hhit as (j & b & Hj & Hp & Ho). cbn in Ho.
    split.
    + split; [discriminate|]. intros Hnone. rewrite (Hnone j b Hj) in Hp. discriminate.
    + intros i Hi. injection Hi as <-. rewrite Ho. exists b, (hit_distance hit).
      split; [exact Hj|]. split; [exact Hp|].
      intros k b' t' Hk Hp'.
      assert ({| hit_distance := t'; hit_object := k |} ∈ hit :: rest) as Hin
        by (apply Helem, hits_from_spec; exists k, b'; cbn; auto).
      apply elem_of_cons in Hin as [<-|Hin]; [apply nltb_irrefl|].
      apply StronglySorted_inv in Hsorted as [_ Hmin].
      exact (proj1 (Forall_forall _ _) Hmin _ Hin).
Qed.

End Sorting.

#[export] Instance real_order_laws : OrderLaws R.
Proof.
  split; cbn; intros a b; [|intros c];
    repeat match goal with |- context [Rlt_dec ?u ?v] => destruct (Rlt_dec u v) end;
    intros; try reflexivity; try discriminate; lra.
Qed.

Section RaySphere.

Local Open Scope R_scope.

(** On a ray of unit direction, the point at [t] is on the sphere exactly
    when [t] is at distance [sqrt (r^2 - d2)] from the foot [tca]. *)
Lemma on_sphere_quadratic (ray : Ray R) (b : Body R) (t : R) :
  dot (direction ray) (direction ray) = 1 ->
  let v := vsub (center b) (origin ray) in
  let tca := dot v (direction ray) in
  on_sphere (ray_at ray t) b <->
  (t - tca) * (t - tca) = radius b * radius b - (dot v v - tca * tca).
Proof.
  destruct ray as [[[o1 o2] o3] [[d1 d2] d3]], b as [[[c1 c2] c3] r].
  unfold on_sphere, ray_at, dot, vsub. cbn. intros Hunit. split; intros E; nra.
Qed.

Lemma square_roots (u s : R) : 0 <= s -> u * u = s * s -> u = s \/ u = - s.
Proof.
  intros Hs E. assert ((u - s) * (u + s) = 0) as Hz by nra.
  apply Rmult_integral in Hz as [Hz|Hz]; [left|right]; lra.
Qed.

(** What [ray_parameter] computes, in exact arithmetic. *)
Lemma ray_parameter_first_meeting (ray : Ray R) (b : Body R) :
  dot (direction ray) (direction ray) = 1 ->
  match ray_parameter ray b with
  | Some t => first_meeting ray b t
  | None => forall t, 0 <= t -> ~ on_sphere (ray_at ray t) b
  end.
Proof.
  intros Hunit. pose proof (fun t => on_sphere_quadratic ray b t Hunit) as Hq.
  cbn zeta in Hq. unfold ray_parameter. cbn [nltb real_ordered nadd nsub nmul nsqrt lit_0 real_number].
  set (v := vsub (center b) (origin ray)) in *.
  set (tca := dot v (direction ray)) in *.
  set (r2 := radius b * radius b) in *.
  set (d2 := dot v v - tca * tca) in *.
  clearbody d2 r2 tca. clear v.
  destruct (Rlt_dec r2 d2) as [Hfar|Hnear].
  - intros t Ht Hon. apply Hq in Hon.
    pose proof (Rle_0_sqr (t - tca)) as Hsq. unfold Rsqr in Hsq. lra.
  - assert (0 <= r2 - d2) as Hpos by lra.
    pose proof (sqrt_pos (r2 - d2)) as Hthc0.
    pose proof (sqrt_sqrt (r2 - d2) Hpos) as Hthc.
    set (thc := sqrt (r2 - d2)) in *.
    assert (forall t, on_sphere (ray_at ray t) b <-> t = tca + thc \/ t = tca - thc) as Hroots.
    { intros t. rewrite Hq. split.
      - intros E. destruct (square_roots (t - tca) thc Hthc0) as [E'|E']; [lra|left|right]; lra.
      - intros [-> | ->]; nra. }
    destruct (Rlt_dec (tca + thc) 0) as [Hbehind|Hahead].
    + intros t Ht Hon. apply Hroots in Hon as [->| ->]; lra.
    + destruct (Rlt_dec (tca - thc) 0) as [Hinside|Houtside].
      * split; [lra|]. split; [apply Hroots; now left|].
        intros t' Ht' Hon. apply Hroots in Hon as [->| ->]; lra.
      * split; [lra|]. split; [apply Hroots; now right|].
        intros t' Ht' Hon. apply Hroots in Hon as [->| ->]; lra.
Qed.

Lemma first_meeting_unique (ray : Ray R) (b : Body R) (t t' : R) :
  first_meeting ray b t -> first_meeting ray b t' -> t = t'.
Proof.
  intros (H0 & Hon & Hmin) (H0' & Hon' & Hmin').
  pose proof (Hmin t' H0' Hon'). pose proof (Hmin' t H0 Hon). lra.
Qed.

End RaySphere.

(** What the handler takes of the raycaster's result is what the resolver
    returns. *)
Lemma pick_intersectObjects (ray : Ray float) (bodies : list (Body float)) :
  pick (to_intersection <$> intersectObjects ray bodies) = resolve ray bodies.
Proof.
  unfold resolve. destruct (intersectObjects ray bodies); reflexivity.
Qed.

(** C8: in exact arithmetic, for every ray of unit direction and every list
    of bodies, the pick resolver returns none exactly when the ray meets the
    sphere of no body, and otherwise returns a body whose sphere the ray
    meets and whose ray parameter (that of the first meeting point) is the
    smallest among all bodies whose sphere the ray meets. *)
Theorem resolve_nearest (ray : Ray R) (bodies : list (Body R)) :
  dot (direction ray) (direction ray) = 1%R ->
  (resolve ray bodies = None <->
   forall k b t, bodies !! k = Some b -> (0 <= t)%R -> ~ on_sphere (ray_at ray t) b)
  /\ (forall i, resolve ray bodies = Some i ->
        exists b t, bodies !! i = Some b /\ first_meeting ray b t
          /\ forall k b' t', bodies !! k = Some b' -> first_meeting ray b' t' -> (t <= t')%R).
Proof.
  intros Hunit. destruct (resolve_least ray bodies) as [Hnone Hsome]. split.
  - rewrite Hnone. split.
    + intros Hall k b t Hk Ht.
      pose proof (ray_parameter_first_meeting ray b Hunit) as Hb.
      rewrite (Hall k b Hk) in Hb. now apply Hb.
    + intros Hall k b Hk.
      pose proof (ray_parameter_first_meeting ray b Hunit) as Hb.
      destruct (ray_parameter ray b) as [t|]; [|reflexivity].
      destruct Hb as (Ht & Hon & _). exfalso. exact (Hall k b t Hk Ht Hon).
  - intros i Hi. destruct (Hsome i Hi) as (b & t & Hb & Hp & Hmin).
    exists b, t. split; [exact Hb|].
    pose proof (ray_parameter_first_meeting ray b Hunit) as Hfm. rewrite Hp in Hfm.
    split; [exact Hfm|].
    intros k b' t' Hk Hfm'.
    pose proof (ray_parameter_first_meeting ray b' Hunit) as Hb'.
    destruct (ray_parameter ray b') as [t''|] eqn:Ep'.
    + rewrite (first_meeting_unique ray b' t' t'' Hfm' Hb').
      pose proof (Hmin k b' t'' Hk Ep') as Hle. cbn in Hle.
      destruct (Rlt_dec t'' t); [discriminate|lra].
    + destruct Hfm' as (Ht' & Hon' & _). exfalso. exact (Hb' t' Ht' Hon').
Qed.

(** C3, as the code has it: when body [a] is hovered and the next event
    picks [a] again, the handler reverts [a] and applies the highlight to it
    again.  The hover state stays [a] and a highlighted [a] looks the same
    afterwards, but the event performs one highlight application of its own,
    so that two consecutive events with the same pick perform two. *)
Theorem same_pick_reapplies {T : Type} `{Number T}
    (variant : Variant) (w : World T) (ev : MouseEvent) (a : nat) :
  hoveredNode w = Some a ->
  pick (intersects ev) = Some a ->
  let w' := onMouseMove variant w ev in
  hoveredNode w' = Some a
  /\ nodeObjects w' = alter (highlight variant) a (nodeObjects w)
  /\ (forall m, nodeObjects w !! a = Some m -> highlight variant m = m ->
        nodeObjects w' = nodeObjects w)
  /\ actions w'
     = actions w ++ [HighlightReverted a; TooltipHidden; HighlightApplied a; TooltipShown a]
  /\ (forall ev2, pick (intersects ev2) = Some a ->
        highlight_applies (actions (onMouseMove variant w' ev2))
        = (highlight_applies (actions w) + 2)%nat).
Proof.
  intros Hh Hp. cbn zeta.
  assert (nodeObjects (onMouseMove variant w ev) = alter (highlight variant) a (nodeObjects w))
    as Hobjs.
  { unfold onMouseMove, handleHover, resetHover. rewrite Hp, Hh. cbn.
    rewrite list_alter_alter_eq. apply list_alter_ext; [|reflexivity].
    intros m _. reflexivity. }
  split; [now rewrite onMouseMove_hoveredNode|].
  split; [exact Hobjs|]. split; [|split].
  - intros m Hm Hfix. rewrite Hobjs. now apply (alter_fixed _ _ _ m).
  - rewrite (onMouseMove_actions variant w ev a Hp), Hh. reflexivity.
  - intros ev2 Hp2.
    rewrite (onMouseMove_applies variant _ ev2 a Hp2).
    rewrite (onMouseMove_applies variant w ev a Hp). lia.
Qed.

(** C4: the revert step writes the stored [originalColor], and that is not
    always the colour the body was created with.  A node of group [-1] has no
    palette entry ([-1 % 15] is [-1] in JavaScript), so its sphere is created
    with the material's default white while [undefined] is stored as its
    original colour; hovering it and moving away leaves it black, at the
    original scale, with no body hovered. *)
Theorem hover_revert_unlisted_group :
  groupColor (index_js blend_white) (-1) = None
  /\ (fun m => (originalColor (userData m), color m, scale m))
       <$> nodeObjects (created (index_js blend_white) unlisted_graph)
     = [(None, 0xffffff%Z, 1%float)]
  /\ hoveredNode (foldl (onMouseMove (index_js blend_white))
                    (created (index_js blend_white) unlisted_graph) [over_first])
     = Some 0%nat
  /\ hoveredNode (foldl (onMouseMove (index_js blend_white))
                    (created (index_js blend_white) unlisted_graph)
                    [over_first; over_nothing])
     = None
  /\ (fun m => (originalColor (userData m), color m, scale m))
       <$> nodeObjects (foldl (onMouseMove (index_js blend_white))
                          (created (index_js blend_white) unlisted_graph)
                          [over_first; over_nothing])
     = [(None, 0%Z, 1%float)].
Proof.
  repeat split; vm_compute; reflexivity.
Qed.

(** X19: in the scene [createNetworkVisualization] builds of nodes whose
    groups all have a palette entry, after any sequence of pointer-move
    events at most one body is highlighted; the [userData] of every body is
    still the one stored when the body was created; and the revert step of
    the handler leaves every body, the reverted one included, with the colour
    and scale it was created with, which are the stored originals. *)
Theorem hover_one_highlight {T : Type} `{Number T}
    (variant : Variant) (g : Graph T) (evs : list MouseEvent) :
  palette_covers variant (nodes g) ->
  let w0 := created variant g in
  let w := foldl (onMouseMove variant) w0 evs in
  (forall k1 k2 m1 m2,
      nodeObjects w !! k1 = Some m1 -> nodeObjects w !! k2 = Some m2 ->
      highlighted m1 -> highlighted m2 -> k1 = k2)
  /\ userData <$> nodeObjects w = userData <$> nodeObjects w0
  /\ (forall k m, nodeObjects (resetHover w) !! k = Some m ->
        exists m0, nodeObjects w0 !! k = Some m0
          /\ userData m = userData m0
          /\ originalColor (userData m0) = Some (color m) /\ color m = color m0
          /\ scale m = originalScale (userData m0) /\ scale m = scale m0).
Proof.
  intros Hpal. cbn zeta.
  destruct (events_calm variant evs (created variant g) (created_calm variant g Hpal))
    as [Hc Hu].
  set (w := foldl (onMouseMove variant) (created variant g) evs) in *.
  split; [|split; [exact Hu|]].
  - intros k1 k2 m1 m2 H1 H2 Hl1 Hl2.
    destruct (decide (hoveredNode w = Some k1)) as [E1|N1];
      [|exfalso; exact (Hl1 (Hc k1 m1 H1 N1))].
    destruct (decide (hoveredNode w = Some k2)) as [E2|N2];
      [|exfalso; exact (Hl2 (Hc k2 m2 H2 N2))].
    congruence.
  - intros k m Hk.
    destruct (resetHover_calm w Hc) as [_ Hnone].
    pose proof (userData_resetHover w) as Hur. rewrite Hu in Hur.
    assert ((userData <$> nodeObjects (created variant g)) !! k = Some (userData m)) as Hk0
      by (rewrite <- Hur, list_lookup_fmap, Hk; reflexivity).
    rewrite list_lookup_fmap in Hk0.
    destruct (nodeObjects (created variant g) !! k) as [m0|] eqn:E0; [|discriminate].
    cbn in Hk0. injection Hk0 as Hud.
    destruct (created_spheres variant g k m0 Hpal E0) as [Ec Es].
    destruct (created_palette variant g k m0 Hpal E0) as [c Hc0].
    exists m0. split; [reflexivity|]. split; [congruence|].
    destruct (Hnone k m Hk) as [Hcm Hsm].
    rewrite <- Hud, Hc0 in Hcm. cbn in Hcm.
    rewrite Hc0 in Ec. cbn in Ec.
    repeat split; congruence.
Qed.

(** ** Concrete runs *)

(** C1: the attraction step has no guard for distance zero.  For a
    self-edge the edge vector is zero, [0 / 0] is [NaN], and the accumulator
    of the node becomes [NaN]; the repulsion step, which adds [0.1] to the
    distance, yields a finite force for the same two positions. *)
Theorem attraction_zero_distance_nan :
  attractionForce nodeB nodeB = (nan, nan, nan)
  /\ attractEdge (mkEdge 1 1) [nodeA; nodeB] = Normal [nodeA; set_force nodeB nan nan nan]
  /\ repulsionForce nodeB nodeB = (0%float, 0%float, 0%float).
Proof. vm_compute. repeat split; reflexivity. Qed.

(** C2: loading data with a self-edge ends normally, and every coordinate
    of every node, and of every sphere built from them, is [NaN]. *)
Theorem layout_self_edge_nan :
  let w := loadNetworkData (index_js blend_white) self_edge_data sample_random initial_world in
  console w = []
  /\ position <$> nodes (graph w) = [(nan, nan, nan); (nan, nan, nan)]
  /\ mesh_position <$> nodeObjects w = [(nan, nan, nan); (nan, nan, nan)]
  /\ forallb (fun n => is_nan (x n) && is_nan (y n) && is_nan (z n)) (nodes (graph w)) = true.
Proof. vm_compute. repeat split; reflexivity. Qed.

(** Two consecutive events with the same pick apply the highlight twice. *)
Lemma same_pick_twice_two_applies :
  actions (foldl (onMouseMove (index_js blend_white)) hover_scene [over_both; over_both])
  = [HighlightApplied 0; TooltipShown 0;
     HighlightReverted 0; TooltipHidden; HighlightApplied 0; TooltipShown 0]
  /\ highlight_applies
       (actions (foldl (onMouseMove (index_js blend_white)) hover_scene [over_both; over_both]))
     = 2%nat.
Proof. vm_compute. split; reflexivity. Qed.

Lemma same_pick_reapplies_witness :
  let v := index_js blend_white in
  let w := onMouseMove v hover_scene over_both in
  let w' := onMouseMove v w over_both in
  hoveredNode w = Some 0%nat
  /\ pick (intersects over_both) = Some 0%nat
  /\ hoveredNode w' = Some 0%nat
  /\ nodeObjects w' = alter (highlight v) 0%nat (nodeObjects w)
  /\ (forall m, nodeObjects w !! 0%nat = Some m -> highlight v m = m ->
        nodeObjects w' = nodeObjects w)
  /\ actions w'
     = actions w ++ [HighlightReverted 0; TooltipHidden; HighlightApplied 0; TooltipShown 0]
  /\ (forall ev2, pick (intersects ev2) = Some 0%nat ->
        highlight_applies (actions (onMouseMove v w' ev2))
        = (highlight_applies (actions w) + 2)%nat).
Proof.
  split; [reflexivity|]. split; [reflexivity|].
  exact (same_pick_reapplies (index_js blend_white)
           (onMouseMove (index_js blend_white) hover_scene over_both) over_both 0%nat
           eq_refl eq_refl).
Defined.

(** After loading data with a dangling link the module-level graph is not
    empty: both nodes are there, initialised and with the forces of the
    edges processed before the throw, and so are both links. *)
Lemma dangling_edge_graph_remains :
  let w := loadNetworkData (index_js blend_white) dangling_data sample_random initial_world in
  length (nodes (graph w)) = 2%nat
  /\ position <$> nodes (graph w)
     = [((-10)%float, 10%float, 0%float); ((-15)%float, 15%float, (-5)%float)]
  /\ edges (graph w) = [mkEdge 0 1; mkEdge 0 5]
  /\ console w = ["Error loading network data:"].
Proof. vm_compute. repeat split; reflexivity. Qed.

Lemma loadNetworkData_dangling_edge_witness :
  let w := loadNetworkData (index_js blend_white) dangling_data sample_random initial_world in
  ~ Forall (edge_in_range (length (data_nodes dangling_data))) (data_links dangling_data)
  /\ console w = [] ++ ["Error loading network data:"]
  /\ nodeObjects w = []
  /\ edgeObjects w = []
  /\ edges (graph w) = data_links dangling_data
  /\ (fun n => (name n, group n, id n)) <$> nodes (graph w)
     = imap (fun i r => (raw_name r, raw_group r, i)) (data_nodes dangling_data).
Proof.
  assert (~ Forall (edge_in_range (length (data_nodes dangling_data)))
            (data_links dangling_data)) as Hbad.
  { intros Hall. apply Forall_cons in Hall as [_ Hall].
    apply Forall_cons in Hall as [[_ Ht] _]. cbn in Ht. lia. }
  split; [exact Hbad|].
  exact (loadNetworkData_dangling_edge (index_js blend_white) dangling_data sample_random
           initial_world Hbad).
Defined.

Lemma applyForceLayout_300_iterations_witness :
  edges_in_range two_node_graph
  /\ exists ns',
       applyForceLayout two_node_graph = Normal {| nodes := ns'; edges := [mkEdge 0 1] |}
       /\ nsteps (relaxation [mkEdge 0 1]) 300 [nodeA; nodeB] ns'.
Proof.
  assert (edges_in_range two_node_graph) as Hg
    by (repeat constructor; cbn; lia).
  split; [exact Hg|].
  exact (proj1 (applyForceLayout_300_iterations two_node_graph Hg)).
Defined.

Lemma force_sum_zero_witness :
  edges_in_range exact_graph
  /\ exists ns',
       attraction (edges exact_graph) (repulsion (resetForces (nodes exact_graph))) = Normal ns'
       /\ total fx ns' = 0%R /\ total fy ns' = 0%R /\ total fz ns' = 0%R.
Proof.
  assert (edges_in_range exact_graph) as Hg
    by (repeat constructor; cbn; lia).
  split; [exact Hg|].
  exact (proj1 (force_sum_zero exact_graph Hg)).
Defined.

(** ** Further properties of the layout *)

Section LayoutErrors.
Context {T : Type} `{Number T}.

Lemma attraction_app es1 es2 (ns : list (Node T)) :
  attraction (es1 ++ es2) ns = andThen (attraction es1 ns) (attraction es2).
Proof.
  revert ns; induction es1 as [|e es1 IH]; intros ns; cbn; [reflexivity|].
  destruct (attractEdge e ns); [apply IH|reflexivity].
Qed.

(** A node is its kinematics and its accumulator. *)
Lemma reset_of_kinematics (n m : Node T) :
  kinematics n = kinematics m ->
  set_force n lit_0 lit_0 lit_0 = set_force m lit_0 lit_0 lit_0.
Proof.
  destruct n, m. unfold kinematics, set_force; cbn. intros E.
  injection E as -> -> -> -> -> -> -> -> ->. reflexivity.
Qed.

Lemma resetForces_of_kinematics (ns ms : list (Node T)) :
  kinematics <$> ns = kinematics <$> ms -> resetForces ns = resetForces ms.
Proof.
  unfold resetForces.
  revert ms; induction ns as [|n ns IH]; intros [|m ms] E; try discriminate; [reflexivity|].
  rewrite !fmap_cons in E.
  assert (kinematics n = kinematics m /\ kinematics <$> ns = kinematics <$> ms) as [E1 E2]
    by (split; congruence).
  cbn. rewrite (reset_of_kinematics n m E1). f_equal. now apply IH.
Qed.

Lemma layoutIteration_of_kinematics (g g' : Graph T) :
  kinematics <$> nodes g = kinematics <$> nodes g' -> edges g = edges g' ->
  layoutIteration g = layoutIteration g'.
Proof.
  intros En Ee. unfold layoutIteration.
  now rewrite (resetForces_of_kinematics _ _ En), Ee.
Qed.

Lemma applyForceLayout_first (g : Graph T) :
  applyForceLayout g
  = for_range 299 1 (fun _ o => andThen o layoutIteration) (layoutIteration g).
Proof.
  unfold applyForceLayout, for_loop.
  change (iterations - 0)%nat with (Datatypes.S 299). now rewrite for_range_S.
Qed.

End LayoutErrors.

(** X1: the attraction pass stops at the first edge that names no node.
    The edges before it have been applied to the accumulators and stay
    applied; the edges after it have no effect. *)
Theorem attraction_stops_at_dangling {T : Type} `{Number T}
    (es1 es2 : list Edge) (bad : Edge) (ns : list (Node T)) :
  Forall (edge_in_range (length ns)) es1 ->
  ~ edge_in_range (length ns) bad ->
  exists ns1,
    attraction es1 ns = Normal ns1
    /\ attraction (es1 ++ bad :: es2) ns = Throw ns1.
Proof.
  intros Hes Hbad.
  destruct (attraction_in_range es1 ns Hes) as (ns1 & E & L).
  exists ns1. split; [exact E|].
  rewrite attraction_app, E. cbn.
  rewrite attractEdge_out_of_range; [reflexivity|now rewrite L].
Qed.

(** X2: a layout that fails moves no node.  With an edge that names no
    node the call throws during its first iteration, before any position or
    velocity is assigned: name, group, id, position and velocity of every
    node are those before the call; only accumulators have changed. *)
Theorem applyForceLayout_failure_moves_nothing {T : Type} `{Number T} (g : Graph T) :
  ~ edges_in_range g ->
  exists ns',
    applyForceLayout g = Throw {| nodes := ns'; edges := edges g |}
    /\ attraction (edges g) (repulsion (resetForces (nodes g))) = Throw ns'
    /\ (fun n => (name n, group n, id n, (x n, y n, z n), (vx n, vy n, vz n))) <$> ns'
       = (fun n => (name n, group n, id n, (x n, y n, z n), (vx n, vy n, vz n))) <$> nodes g.
Proof.
  intros Hg.
  destruct (attraction_out_of_range (edges g) (repulsion (resetForces (nodes g))))
    as (ns' & E & _).
  { now rewrite length_repulsion, length_resetForces. }
  exists ns'. split; [|split; [exact E|]].
  - rewrite applyForceLayout_first. unfold layoutIteration. rewrite E.
    apply for_range_Throw.
  - pose proof (kinematics_attraction (edges g) (repulsion (resetForces (nodes g)))) as K.
    rewrite E in K. unfold outcome_state in K.
    now rewrite kinematics_repulsion, kinematics_resetForces in K.
Qed.

(** X3: the layout never reads what the accumulators hold when it is
    called.  Two graphs with the same edges whose nodes agree on name,
    group, id, position and velocity have the same outcome. *)
Theorem applyForceLayout_ignores_accumulators {T : Type} `{Number T} (g g' : Graph T) :
  (fun n => (name n, group n, id n, (x n, y n, z n), (vx n, vy n, vz n))) <$> nodes g
  = (fun n => (name n, group n, id n, (x n, y n, z n), (vx n, vy n, vz n))) <$> nodes g' ->
  edges g = edges g' ->
  applyForceLayout g = applyForceLayout g'.
Proof.
  intros En Ee. rewrite !applyForceLayout_first.
  now rewrite (layoutIteration_of_kinematics g g' En Ee).
Qed.

(** ** The forces and the motion in exact arithmetic *)

Section ExactForces.

Local Open Scope R_scope.

Lemma sum_squares_pos (a b c : R) : ~ (a = 0 /\ b = 0 /\ c = 0) -> 0 < a * a + b * b + c * c.
Proof.
  intros Hne.
  destruct (Req_dec a 0) as [Ha|Ha]; [|nra].
  destruct (Req_dec b 0) as [Hb|Hb]; [|nra].
  destruct (Req_dec c 0) as [Hc|Hc]; [|nra].
  exfalso. apply Hne. auto.
Qed.

Lemma abs_le_norm (a b c : R) : Rabs a <= sqrt (a * a + b * b + c * c).
Proof.
  rewrite <- sqrt_Rsqr_abs. apply sqrt_le_1_alt. unfold Rsqr. nra.
Qed.

(** One component of a softened inverse-square force. *)
Lemma softened_component_bound (u s : R) :
  Rabs u <= s ->
  Rabs (u / (s + 1 / 10) * (1000 / ((s + 1 / 10) * (s + 1 / 10)))) <= 100000.
Proof.
  intros Hu. pose proof (Rabs_pos u) as Hu0.
  set (d := s + 1 / 10). assert (1 / 10 <= d) as Hd by (unfold d; lra).
  assert (0 < d) as Hd0 by lra.
  assert (0 < d * d) as Hdd by nra.
  rewrite Rabs_mult. unfold Rdiv at 1. rewrite Rabs_mult.
  rewrite (Rabs_pos_eq (/ d)) by (left; now apply Rinv_0_lt_compat).
  rewrite (Rabs_pos_eq (1000 / (d * d))) by (apply Rlt_le, Rdiv_lt_0_compat; lra).
  assert (Rabs u * / d <= 1) as H1.
  { apply (Rmult_le_reg_r d); [exact Hd0|].
    rewrite Rmult_assoc, Rinv_l by lra. unfold d. lra. }
  assert (0 <= Rabs u * / d) as H0.
  { apply Rmult_le_pos; [exact Hu0|]. left. now apply Rinv_0_lt_compat. }
  assert (1000 / (d * d) <= 100000) as H2.
  { apply (Rmult_le_reg_r (d * d)); [exact Hdd|].
    unfold Rdiv. rewrite Rmult_assoc, Rinv_l by lra. nra. }
  assert (0 <= 1000 / (d * d)) as H3 by (apply Rlt_le, Rdiv_lt_0_compat; lra).
  nra.
Qed.

End ExactForces.

(** X4: in exact arithmetic the attraction along an edge whose ends are at
    different positions is a linear spring: the force on the source is
    [0.1] times the vector from source to target, whatever its length. *)
Theorem attraction_linear_spring (s t : Node R) :
  position s <> position t ->
  attractionForce s t
  = ((1 / 10) * (x t - x s), (1 / 10) * (y t - y s), (1 / 10) * (z t - z s))%R.
Proof.
  intros Hne. unfold attractionForce, attractionStrength. cbn.
  set (dx := (x t - x s)%R). set (dy := (y t - y s)%R). set (dz := (z t - z s)%R).
  assert (0 < dx * dx + dy * dy + dz * dz)%R as Hq.
  { apply sum_squares_pos. intros (Ex & Ey & Ez). apply Hne. unfold position.
    unfold dx, dy, dz in *.
    replace (x s) with (x t) by lra. replace (y s) with (y t) by lra.
    replace (z s) with (z t) by lra. reflexivity. }
  pose proof (sqrt_lt_R0 _ Hq) as Hd.
  set (d := sqrt (dx * dx + dy * dy + dz * dz)) in *.
  f_equal; [f_equal|]; field; apply Rgt_not_eq; exact Hd.
Qed.

(** X5: in exact arithmetic the softening keeps the repulsion bounded:
    whatever the two positions, each component of the force is at most
    [1000 / 0.1^2 = 100000] in absolute value, and two nodes at the same
    position do not repel each other at all. *)
Theorem repulsion_bounded (a b : Node R) :
  (Rabs (repulsionForce a b).1.1 <= 100000)%R
  /\ (Rabs (repulsionForce a b).1.2 <= 100000)%R
  /\ (Rabs (repulsionForce a b).2 <= 100000)%R
  /\ (position a = position b -> repulsionForce a b = (0, 0, 0)%R).
Proof.
  unfold repulsionForce, repulsionStrength. cbn.
  set (dx := (x a - x b)%R). set (dy := (y a - y b)%R). set (dz := (z a - z b)%R).
  repeat split.
  - apply softened_component_bound, abs_le_norm.
  - apply softened_component_bound.
    replace (dx * dx + dy * dy + dz * dz)%R with (dy * dy + dx * dx + dz * dz)%R by ring.
    apply abs_le_norm.
  - apply softened_component_bound.
    replace (dx * dx + dy * dy + dz * dz)%R with (dz * dz + dx * dx + dy * dy)%R by ring.
    apply abs_le_norm.
  - unfold position. intros E. injection E as Ex Ey Ez.
    assert (dx = 0 /\ dy = 0 /\ dz = 0)%R as (-> & -> & ->)
      by (unfold dx, dy, dz; rewrite Ex, Ey, Ez; repeat split; ring).
    unfold Rdiv. now rewrite !Rmult_0_l.
Qed.

Section ExactMotion.

Lemma total_cons {T : Type} `{Number T} (p : Node T -> T) (n : Node T) (ns : list (Node T)) :
  total p (n :: ns) = (p n + total p ns)%num.
Proof. reflexivity. Qed.

Lemma total_of_kinematics {T : Type} `{Number T} (p : Node T -> T) (ns ms : list (Node T)) :
  (forall n m, kinematics n = kinematics m -> p n = p m) ->
  kinematics <$> ns = kinematics <$> ms -> total p ns = total p ms.
Proof.
  intros Hp. revert ms; induction ns as [|n ns IH]; intros [|m ms] E; try discriminate;
    [reflexivity|].
  rewrite !fmap_cons in E.
  assert (kinematics n = kinematics m /\ kinematics <$> ns = kinematics <$> ms) as [E1 E2]
    by (split; congruence).
  rewrite !total_cons. now rewrite (Hp n m E1), (IH ms E2).
Qed.

Lemma pos_of_kinematics {T : Type} `{Number T} ax (n m : Node T) :
  kinematics n = kinematics m -> pos_of ax n = pos_of ax m.
Proof. unfold kinematics. intros E. destruct ax; cbn; congruence. Qed.

Lemma vel_of_kinematics {T : Type} `{Number T} ax (n m : Node T) :
  kinematics n = kinematics m -> vel_of ax n = vel_of ax m.
Proof. unfold kinematics. intros E. destruct ax; cbn; congruence. Qed.

Lemma total_vel_integrate ax (ns : list (Node R)) :
  total (vel_of ax) (integrate ns)
  = ((total (vel_of ax) ns + total (force_of ax) ns) * (9 / 10))%R.
Proof.
  unfold integrate. induction ns as [|n ns IH].
  - cbn. lra.
  - change (map integrateNode (n :: ns)) with (integrateNode n :: map integrateNode ns).
    rewrite !total_cons, IH.
    set (V := total (vel_of ax) ns). set (F := total (force_of ax) ns).
    destruct ax; cbn; lra.
Qed.

Lemma total_pos_integrate ax (ns : list (Node R)) :
  total (pos_of ax) (integrate ns)
  = (total (pos_of ax) ns + total (vel_of ax) (integrate ns))%R.
Proof.
  unfold integrate. induction ns as [|n ns IH].
  - cbn. lra.
  - change (map integrateNode (n :: ns)) with (integrateNode n :: map integrateNode ns).
    rewrite !total_cons, IH.
    set (P := total (pos_of ax) ns). set (V := total (vel_of ax) (map integrateNode ns)).
    destruct ax; cbn; lra.
Qed.

(** One iteration: the forces cancel, so the total velocity is damped and
    the total position moves by the new total velocity. *)
Lemma layoutIteration_momentum (g : Graph R) :
  edges_in_range g ->
  exists ns',
    layoutIteration g = Normal {| nodes := ns'; edges := edges g |}
    /\ length ns' = length (nodes g)
    /\ forall ax,
         total (vel_of ax) ns' = (9 / 10 * total (vel_of ax) (nodes g))%R
         /\ total (pos_of ax) ns'
            = (total (pos_of ax) (nodes g) + total (vel_of ax) ns')%R.
Proof.
  intros Hg. unfold layoutIteration.
  destruct (attraction_in_range (edges g) (repulsion (resetForces (nodes g)))) as (c & E & L).
  { now rewrite length_repulsion, length_resetForces. }
  rewrite E. exists (integrate c). split; [reflexivity|].
  split; [now rewrite length_integrate, L, length_repulsion, length_resetForces|].
  intros ax.
  assert (kinematics <$> c = kinematics <$> nodes g) as K.
  { pose proof (kinematics_attraction (edges g) (repulsion (resetForces (nodes g)))) as K.
    rewrite E in K. unfold outcome_state in K.
    now rewrite kinematics_repulsion, kinematics_resetForces in K. }
  assert (total (force_of ax) c = 0%R) as F.
  { pose proof (total_attraction ax (edges g) (repulsion (resetForces (nodes g)))) as Ht.
    rewrite E in Ht. unfold outcome_state in Ht.
    now rewrite Ht, total_repulsion, total_resetForces. }
  rewrite total_pos_integrate, total_vel_integrate, F.
  rewrite (total_of_kinematics (vel_of ax) c (nodes g) (vel_of_kinematics ax) K).
  rewrite (total_of_kinematics (pos_of ax) c (nodes g) (pos_of_kinematics ax) K).
  split; lra.
Qed.

Lemma layout_loop_momentum (count start : nat) (g : Graph R) :
  edges_in_range g ->
  exists ns',
    for_range count start (fun _ o => andThen o layoutIteration) (Normal g)
    = Normal {| nodes := ns'; edges := edges g |}
    /\ forall ax,
         total (vel_of ax) ns' = ((9 / 10) ^ count * total (vel_of ax) (nodes g))%R
         /\ (total (vel_of ax) (nodes g) = 0%R ->
             total (pos_of ax) ns' = total (pos_of ax) (nodes g)).
Proof.
  revert start g; induction count as [|c IH]; intros start g Hg.
  - exists (nodes g). split; [now destruct g|]. intros ax. cbn. split; [lra|reflexivity].
  - destruct (layoutIteration_momentum g Hg) as (ns1 & E1 & L1 & M1).
    rewrite for_range_S.
    change (andThen (Normal g) layoutIteration) with (layoutIteration g). rewrite E1.
    destruct (IH (Datatypes.S start) {| nodes := ns1; edges := edges g |}) as (ns' & E & M).
    { unfold edges_in_range in *. cbn. now rewrite L1. }
    exists ns'. split; [exact E|]. intros ax.
    destruct (M ax) as [Mv Mp]. destruct (M1 ax) as [M1v M1p].
    change (nodes {| nodes := ns1; edges := edges g |}) with ns1 in Mv, Mp.
    split.
    + rewrite Mv, M1v. cbn [pow]. lra.
    + intros Z0. rewrite Mp by (rewrite M1v, Z0; lra).
      rewrite M1p, M1v, Z0. lra.
Qed.

Lemma graph_createNetworkVisualization {T : Type} `{Number T} variant (w : World T) :
  graph (outcome_state (createNetworkVisualization variant w)) = graph w.
Proof.
  unfold createNetworkVisualization. now destruct (createLines _ _ _).
Qed.

Lemma graph_loadNetworkData {T : Type} `{Number T} variant data (rand : nat -> T) w :
  graph (loadNetworkData variant data rand w)
  = outcome_state (applyForceLayout
      {| nodes := imap (initNode rand) (data_nodes data); edges := data_links data |}).
Proof.
  unfold loadNetworkData. destruct (applyForceLayout _) as [g'|g']; cbn; [|reflexivity].
  pose proof (graph_createNetworkVisualization variant (set_graph w g')) as G.
  destruct (createNetworkVisualization variant (set_graph w g')); cbn in *; exact G.
Qed.

Lemma total_vel_imap_initNode ax (rand : nat -> R) (rs : list RawNode) :
  total (vel_of ax) (imap (initNode rand) rs) = 0%R.
Proof.
  assert (forall f : nat -> RawNode -> Node R,
            (forall i r, vel_of ax (f i r) = 0%R) -> total (vel_of ax) (imap f rs) = 0%R) as G.
  { induction rs as [|r rs IH]; intros f Hf; [reflexivity|].
    change (imap f (r :: rs)) with (f 0%nat r :: imap (f ∘ Datatypes.S) rs).
    rewrite total_cons, Hf, IH; [cbn; lra|]. intros i r'. apply Hf. }
  apply G. intros i r. now destruct ax.
Qed.

End ExactMotion.

(** X6: in exact arithmetic, on a graph whose edges reference existing
    nodes, the layout ends normally and the sum of the velocities of all
    nodes is damped by [0.9] per iteration, [0.9^300] in all: the forces
    never add momentum. *)
Theorem applyForceLayout_momentum (g : Graph R) :
  edges_in_range g ->
  exists ns',
    applyForceLayout g = Normal {| nodes := ns'; edges := edges g |}
    /\ total vx ns' = ((9 / 10) ^ 300 * total vx (nodes g))%R
    /\ total vy ns' = ((9 / 10) ^ 300 * total vy (nodes g))%R
    /\ total vz ns' = ((9 / 10) ^ 300 * total vz (nodes g))%R.
Proof.
  intros Hg. unfold applyForceLayout, for_loop. change (iterations - 0)%nat with 300%nat.
  destruct (layout_loop_momentum 300 0 g Hg) as (ns' & E & M).
  exists ns'. split; [exact E|].
  split; [exact (proj1 (M AxisX))|]. split; [exact (proj1 (M AxisY))|exact (proj1 (M AxisZ))].
Qed.

(** X7: in exact arithmetic, loading data whose links are all in range
    leaves the centre of the node cloud where the random initial placement
    put it: the sum of the final positions equals the sum of the initial
    ones, in each coordinate. *)
Theorem loadNetworkData_keeps_centroid
    (variant : Variant) (data : RawData) (rand : nat -> R) (w : World R) :
  Forall (edge_in_range (length (data_nodes data))) (data_links data) ->
  let initial := imap (initNode rand) (data_nodes data) in
  let final := nodes (graph (loadNetworkData variant data rand w)) in
  length final = length initial
  /\ total x final = total x initial
  /\ total y final = total y initial
  /\ total z final = total z initial.
Proof.
  intros Hd. cbn zeta. rewrite graph_loadNetworkData.
  set (g := {| nodes := imap (initNode rand) (data_nodes data); edges := data_links data |}).
  assert (edges_in_range g) as Hg.
  { unfold edges_in_range, g. cbn. now rewrite length_imap. }
  pose proof (applyForceLayout_keeps g) as [Hid _].
  unfold applyForceLayout, for_loop in *. change (iterations - 0)%nat with 300%nat in *.
  destruct (layout_loop_momentum 300 0 g Hg) as (ns' & E & M).
  rewrite E in *. cbn in *.
  split.
  { apply (f_equal length) in Hid. now rewrite !length_fmap in Hid. }
  split; [|split].
  - apply (proj2 (M AxisX)). apply (total_vel_imap_initNode AxisX).
  - apply (proj2 (M AxisY)). apply (total_vel_imap_initNode AxisY).
  - apply (proj2 (M AxisZ)). apply (total_vel_imap_initNode AxisZ).
Qed.

(** ** Further properties of loading and of the scene *)

Section Visualization.
Context {T : Type} `{Number T}.
Variable variant : Variant.

Lemma createLines_in_range (ns : list (Node T)) (es : list Edge) (ls : list (Line T)) :
  Forall (edge_in_range (length ns)) es ->
  exists lines,
    createLines ns es ls = Normal (ls ++ lines)
    /\ Forall2 (fun e l => exists s t,
                  node_at ns (source e) = Some s /\ node_at ns (target e) = Some t
                  /\ l = {| line_from := float32 (x s, y s, z s); line_to := float32 (x t, y t, z t) |}) es lines.
Proof.
  revert ls; induction es as [|e es IH]; intros ls Hes; cbn [createLines].
  - exists []. split; [now rewrite app_nil_r|constructor].
  - apply Forall_cons in Hes as [[Hs Ht] Hes].
    destruct (node_at_Some ns _ Hs) as [s Es], (node_at_Some ns _ Ht) as [t Et].
    rewrite Es, Et.
    destruct (IH (ls ++ [{| line_from := float32 (x s, y s, z s); line_to := float32 (x t, y t, z t) |}]) Hes)
      as (lines & E & F).
    exists ({| line_from := float32 (x s, y s, z s); line_to := float32 (x t, y t, z t) |} :: lines). split.
    + rewrite E. f_equal. now rewrite <- app_assoc.
    + constructor; [|exact F]. exists s, t. auto.
Qed.

Lemma createNetworkVisualization_in_range (w : World T) :
  edges_in_range (graph w) ->
  exists lines,
    createNetworkVisualization variant w
    = Normal (set_objects w (nodeObjects w ++ (createSphere variant <$> nodes (graph w)))
                (edgeObjects w ++ lines))
    /\ Forall2 (fun e l => exists s t,
                  node_at (nodes (graph w)) (source e) = Some s
                  /\ node_at (nodes (graph w)) (target e) = Some t
                  /\ l = {| line_from := float32 (x s, y s, z s); line_to := float32 (x t, y t, z t) |})
         (edges (graph w)) lines.
Proof.
  intros Hg. unfold createNetworkVisualization.
  destruct (createLines_in_range (nodes (graph w)) (edges (graph w)) (edgeObjects w) Hg)
    as (lines & E & F).
  exists lines. now rewrite E.
Qed.

(** In range, the layout ends normally and keeps the identities. *)
Lemma applyForceLayout_in_range (g : Graph T) :
  edges_in_range g ->
  exists ns',
    applyForceLayout g = Normal {| nodes := ns'; edges := edges g |}
    /\ identity <$> ns' = identity <$> nodes g.
Proof.
  intros Hg. pose proof (applyForceLayout_keeps g) as [Hid _].
  unfold applyForceLayout, for_loop in *. change (iterations - 0)%nat with 300%nat in *.
  destruct (layout_loop_relaxations 300 0 g Hg) as (ns' & E & _).
  rewrite E in Hid. exists ns'. split; [exact E|exact Hid].
Qed.

Lemma length_of_identity (ns ms : list (Node T)) :
  identity <$> ns = identity <$> ms -> length ns = length ms.
Proof. intros E. apply (f_equal length) in E. now rewrite !length_fmap in E. Qed.

End Visualization.

(** X8: loading data whose links are all in range succeeds.  Nothing is
    logged; [edges] is the list of links; [nodes] has one node per record,
    in order, with the record's name and group and its index as id; one
    sphere per node is appended to [nodeObjects], placed at the node's final
    position, carrying the record's name and group, coloured by the palette
    entry of its group (white when the group has none, the stored original
    colour being [undefined] then) and at scale 1; and one line per link is
    appended to [edgeObjects]. *)
Theorem loadNetworkData_in_range {T : Type} `{Number T}
    (variant : Variant) (data : RawData) (rand : nat -> T) (w : World T) :
  Forall (edge_in_range (length (data_nodes data))) (data_links data) ->
  let w' := loadNetworkData variant data rand w in
  console w' = console w
  /\ edges (graph w') = data_links data
  /\ (fun n => (name n, group n, id n)) <$> nodes (graph w')
     = imap (fun i r => (raw_name r, raw_group r, i)) (data_nodes data)
  /\ nodeObjects w'
     = nodeObjects w
       ++ ((fun n =>
              {| mesh_position := (x n, y n, z n);
                 userData := {| ud_name := name n; ud_group := group n;
                                originalColor := groupColor variant (group n);
                                originalScale := 1%float |};
                 color := default 0xffffff%Z (groupColor variant (group n));
                 scale := 1%float |}) <$> nodes (graph w'))
  /\ length (edgeObjects w') = (length (edgeObjects w) + length (data_links data))%nat.
Proof.
  intros Hd. cbn zeta. unfold loadNetworkData.
  set (g := {| nodes := imap (initNode rand) (data_nodes data); edges := data_links data |}).
  assert (edges_in_range g) as Hg.
  { unfold edges_in_range, g. cbn. now rewrite length_imap. }
  destruct (applyForceLayout_in_range g Hg) as (ns' & E & Hid).
  rewrite E. change (edges g) with (data_links data) in *.
  destruct (createNetworkVisualization_in_range variant
              (set_graph w {| nodes := ns'; edges := data_links data |})) as (lines & Ev & F).
  { unfold edges_in_range. cbn. rewrite (length_of_identity _ _ Hid). exact Hg. }
  rewrite Ev. cbn.
  split; [reflexivity|]. split; [reflexivity|]. split.
  { change (identity <$> ns' = imap (fun i r => (raw_name r, raw_group r, i)) (data_nodes data)).
    rewrite Hid. apply identity_initNode. }
  split; [reflexivity|].
  rewrite length_app. f_equal. symmetry. cbn in F. exact (Forall2_length _ _ _ F).
Qed.

(** X9: on a graph whose edges are in range, [createNetworkVisualization]
    ends normally and appends, for each edge in order, the line from the
    position of its source node to the position of its target node, each
    coordinate rounded to binary32 by the [Float32Array] that holds it. *)
Theorem createNetworkVisualization_lines {T : Type} `{Number T}
    (variant : Variant) (w : World T) :
  edges_in_range (graph w) ->
  exists w' lines,
    createNetworkVisualization variant w = Normal w'
    /\ edgeObjects w' = edgeObjects w ++ lines
    /\ length lines = length (edges (graph w))
    /\ forall k e, edges (graph w) !! k = Some e ->
         exists s t,
           node_at (nodes (graph w)) (source e) = Some s
           /\ node_at (nodes (graph w)) (target e) = Some t
           /\ lines !! k
              = Some {| line_from := (nfround (x s), nfround (y s), nfround (z s));
                        line_to := (nfround (x t), nfround (y t), nfround (z t)) |}.
Proof.
  intros Hg.
  destruct (createNetworkVisualization_in_range variant w Hg) as (lines & E & F).
  eexists _, lines. split; [exact E|]. split; [reflexivity|].
  split; [symmetry; exact (Forall2_length _ _ _ F)|].
  intros k e Hk.
  destruct (Forall2_lookup_l _ _ _ _ _ F Hk) as (l & Hl & s & t & Es & Et & ->).
  exists s, t. auto.
Qed.

(** X10: the palette lookup wraps around for a non-negative group and finds
    nothing for a negative one (unless the group is a multiple of the palette
    length): [groupColors[g % groupColors.length]] with JavaScript's
    remainder. *)
Theorem groupColor_wraps (variant : Variant) (g : Z) :
  groupColors variant <> [] ->
  ((0 <= g)%Z ->
     exists c, groupColor variant g = Some c
       /\ groupColors variant !! (Z.to_nat g mod length (groupColors variant))%nat = Some c
       /\ groupColor variant (g + Z.of_nat (length (groupColors variant))) = Some c)
  /\ ((g < 0)%Z -> Z.rem g (Z.of_nat (length (groupColors variant))) <> 0%Z ->
        groupColor variant g = None).
Proof.
  intros Hne. set (len := length (groupColors variant)).
  assert (0 < len)%nat as Hlen.
  { unfold len. destruct (groupColors variant); [congruence|cbn; lia]. }
  split.
  - intros Hg.
    assert (forall h, (0 <= h)%Z ->
              groupColor variant h = groupColors variant !! (Z.to_nat h mod len)%nat) as Hgc.
    { intros h Hh. unfold groupColor. fold len. rewrite Z.rem_mod_nonneg by lia.
      destruct (Z.ltb_spec (h mod Z.of_nat len) 0) as [Hneg|_].
      - pose proof (Z.mod_pos_bound h (Z.of_nat len)). lia.
      - f_equal. rewrite <- (Z2Nat.id h) at 1 by lia.
        rewrite <- Nat2Z.inj_mod. apply Nat2Z.id. }
    destruct (lookup_lt_is_Some_2 (groupColors variant) (Z.to_nat g mod len)%nat) as [c Hc].
    { fold len. apply Nat.mod_upper_bound. lia. }
    exists c. rewrite !Hgc by lia. split; [exact Hc|]. split; [exact Hc|].
    rewrite <- Hc. f_equal.
    rewrite Z2Nat.inj_add by lia. rewrite Nat2Z.id.
    rewrite <- Nat.Div0.add_mod_idemp_r, Nat.Div0.mod_same, Nat.add_0_r. reflexivity.
  - intros Hg Hrem. unfold groupColor. fold len in Hrem |- *.
    destruct (Z.ltb_spec (Z.rem g (Z.of_nat len)) 0) as [_|Hpos]; [reflexivity|].
    exfalso. pose proof (Z.rem_nonpos g (Z.of_nat len)). lia.
Qed.

(** X11: the info panel is filled in before the data is loaded, so it
    shows 0 characters and 0 relationships whatever the data holds, while the
    arrays the load assigns have one node per record and one edge per
    link. *)
Theorem startup_info_is_zero {T : Type} `{Number T}
    (variant : Variant) (data : RawData) (rand : nat -> T) :
  (startup variant data rand).1 = (0%nat, 0%nat)
  /\ length (nodes (graph (startup variant data rand).2)) = length (data_nodes data)
  /\ length (edges (graph (startup variant data rand).2)) = length (data_links data).
Proof.
  unfold startup. cbn [fst snd]. split; [reflexivity|].
  rewrite graph_loadNetworkData.
  destruct (applyForceLayout_keeps
              {| nodes := imap (initNode rand) (data_nodes data); edges := data_links data |})
    as [Hn He].
  split.
  - rewrite (length_of_identity _ _ Hn). cbn. apply length_imap.
  - now rewrite He.
Qed.

(** ** Further properties of the hover handler *)

Section HoverMore.
Context {T : Type} `{Number T}.
Variable variant : Variant.

Lemma alter_id_at {A : Type} (f : A -> A) (i : nat) (l : list A) :
  (forall a, l !! i = Some a -> f a = a) -> alter f i l = l.
Proof.
  intros Hf. apply list_eq. intros k.
  destruct (decide (i = k)) as [<-|Hne].
  - rewrite list_lookup_alter_eq. destruct (l !! i) as [a|] eqn:E; [|reflexivity].
    cbn. now rewrite Hf.
  - now rewrite list_lookup_alter_ne.
Qed.

Lemma restore_highlight (m : Mesh T) : pristine m -> restore (highlight variant m) = m.
Proof. destruct m. intros [Ec Es]. cbn in *. unfold restore; cbn. now rewrite <- Ec, <- Es. Qed.

Lemma onMouseMove_shows (objs : list (Mesh T)) (w : World T) ev :
  (forall k m, objs !! k = Some m -> pristine m) ->
  shows variant objs w -> shows variant objs (onMouseMove variant w ev).
Proof.
  intros Hobjs Hw. unfold shows in *.
  assert (nodeObjects (resetHover w) = objs) as Hreset.
  { unfold resetHover. destruct (hoveredNode w) as [h|]; cbn; [|exact Hw].
    rewrite Hw, list_alter_alter_eq. apply alter_id_at.
    intros m Hm. cbn. apply restore_highlight. eauto. }
  unfold onMouseMove, handleHover. rewrite Hreset.
  destruct (pick (intersects ev)); cbn; [reflexivity|].
  unfold resetHover. destruct (hoveredNode w) eqn:E; cbn; [reflexivity|].
  now rewrite E.
Qed.

Lemma events_show (objs : list (Mesh T)) (evs : list MouseEvent) (w : World T) :
  (forall k m, objs !! k = Some m -> pristine m) ->
  shows variant objs w -> shows variant objs (foldl (onMouseMove variant) w evs).
Proof.
  intros Hobjs. revert w; induction evs as [|ev evs IH]; intros w Hw; cbn; [exact Hw|].
  apply IH. now apply onMouseMove_shows.
Qed.

Lemma onMouseMove_signals (w : World T) ev : signals w -> signals (onMouseMove variant w ev).
Proof.
  intros [Ht Hc]. unfold signals, onMouseMove, handleHover.
  destruct (pick (intersects ev)) as [o|]; cbn.
  - split; split; intros _; congruence.
  - unfold resetHover. destruct (hoveredNode w) as [h|] eqn:E; cbn.
    + split; split; intros E'; congruence.
    + rewrite E. split; [exact Ht|]. split; intros E'; congruence.
Qed.

Lemma events_signal (evs : list MouseEvent) (w : World T) :
  signals w -> signals (foldl (onMouseMove variant) w evs).
Proof.
  revert w; induction evs as [|ev evs IH]; intros w Hw; cbn; [exact Hw|].
  apply IH. now apply onMouseMove_signals.
Qed.

Lemma created_fields (g : Graph T) :
  hoveredNode (created variant g) = None
  /\ tooltip (created variant g) = tooltip (@initial_world T)
  /\ cursor (created variant g) = CursorDefault
  /\ actions (created variant g) = []
  /\ console (created variant g) = []
  /\ graph (created variant g) = g.
Proof.
  unfold created, createNetworkVisualization. cbn.
  destruct (createLines _ _ _); cbn; repeat split; reflexivity.
Qed.

Lemma backdrop_onMouseMove (w : World T) ev :
  backdrop (onMouseMove variant w ev) = backdrop w.
Proof.
  unfold backdrop, onMouseMove, handleHover, resetHover.
  destruct (pick (intersects ev)), (hoveredNode w); cbn;
    rewrite ?fmap_alter_keep by reflexivity; reflexivity.
Qed.

Lemma backdrop_events (evs : list MouseEvent) (w : World T) :
  backdrop (foldl (onMouseMove variant) w evs) = backdrop w.
Proof.
  revert w; induction evs as [|ev evs IH]; intros w; cbn; [reflexivity|].
  now rewrite IH, backdrop_onMouseMove.
Qed.

Lemma highlight_reverts_app (a b : list Action) :
  highlight_reverts (a ++ b) = (highlight_reverts a + highlight_reverts b)%nat.
Proof. unfold highlight_reverts. now rewrite List.filter_app, length_app. Qed.

Lemma onMouseMove_balanced (w : World T) ev : balanced w -> balanced (onMouseMove variant w ev).
Proof.
  unfold balanced. intros Hw.
  destruct (hoveredNode w) as [h|] eqn:Eh, (pick (intersects ev)) as [o|] eqn:Ep;
    unfold onMouseMove, handleHover, resetHover; rewrite ?Eh, ?Ep;
    cbn [actions hoveredNode]; rewrite ?Eh;
    rewrite ?highlight_applies_app, ?highlight_reverts_app;
    set (A := highlight_applies (actions w)) in *;
    set (R := highlight_reverts (actions w)) in *;
    cbn; lia.
Qed.

Lemma events_balanced (evs : list MouseEvent) (w : World T) :
  balanced w -> balanced (foldl (onMouseMove variant) w evs).
Proof.
  revert w; induction evs as [|ev evs IH]; intros w Hw; cbn; [exact Hw|].
  apply IH. now apply onMouseMove_balanced.
Qed.

End HoverMore.

(** X12: in the scene [createNetworkVisualization] builds, after any
    sequence of pointer-move events the tooltip is displayed exactly when a
    body is hovered, and the cursor is the pointer exactly then. *)
Theorem hover_signals {T : Type} `{Number T}
    (variant : Variant) (g : Graph T) (evs : list MouseEvent) :
  let w := foldl (onMouseMove variant) (created variant g) evs in
  (display (tooltip w) = DisplayBlock <-> hoveredNode w <> None)
  /\ (cursor w = CursorPointer <-> hoveredNode w <> None).
Proof.
  cbn zeta. apply (events_signal variant evs (created variant g)).
  destruct (created_fields variant g) as (Hh & Ht & Hc & _).
  unfold signals. rewrite Hh, Ht, Hc. cbn. split; split; intros E; congruence.
Qed.

(** X13: in the scene of nodes whose groups all have a palette entry,
    after any sequence of pointer-move events the bodies are exactly those
    the scene was created with, except that the hovered body, if there is
    one, carries the highlight colour and scale.  In particular, whenever
    the pointer is over nothing every body is as it was created. *)
Theorem hover_restores_scene {T : Type} `{Number T}
    (variant : Variant) (g : Graph T) (evs : list MouseEvent) :
  palette_covers variant (nodes g) ->
  let w0 := created variant g in
  let w := foldl (onMouseMove variant) w0 evs in
  nodeObjects w
  = match hoveredNode w with
    | Some o => alter (highlight variant) o (nodeObjects w0)
    | None => nodeObjects w0
    end.
Proof.
  intros Hpal. cbn zeta.
  apply (events_show variant (nodeObjects (created variant g)) evs (created variant g)).
  - intros k m Hk. exact (created_spheres variant g k m Hpal Hk).
  - unfold shows. now rewrite (proj1 (created_fields variant g)).
Qed.

(** X14: the handler never touches the graph, the lines or the console,
    and of the bodies it changes neither their number, nor their positions,
    nor their [userData]: this holds from any state and for any events. *)
Theorem onMouseMove_frame {T : Type} `{Number T}
    (variant : Variant) (w : World T) (evs : list MouseEvent) :
  let w' := foldl (onMouseMove variant) w evs in
  graph w' = graph w
  /\ edgeObjects w' = edgeObjects w
  /\ console w' = console w
  /\ length (nodeObjects w') = length (nodeObjects w)
  /\ mesh_position <$> nodeObjects w' = mesh_position <$> nodeObjects w
  /\ userData <$> nodeObjects w' = userData <$> nodeObjects w.
Proof.
  cbn zeta. pose proof (backdrop_events variant evs w) as B. unfold backdrop in B.
  injection B as Bg Be Bc Bp Bu. repeat split; try assumption.
  apply (f_equal length) in Bu. now rewrite !length_fmap in Bu.
Qed.

(** X15: in the scene as created, after any sequence of pointer-move
    events every highlight that was applied has been reverted, but that of
    the body hovered now: the applications outnumber the reverts by one while
    a body is hovered and equal them otherwise. *)
Theorem hover_actions_balanced {T : Type} `{Number T}
    (variant : Variant) (g : Graph T) (evs : list MouseEvent) :
  let w := foldl (onMouseMove variant) (created variant g) evs in
  highlight_applies (actions w)
  = (highlight_reverts (actions w)
     + match hoveredNode w with Some _ => 1 | None => 0 end)%nat.
Proof.
  cbn zeta. apply (events_balanced variant evs (created variant g)).
  destruct (created_fields variant g) as (Hh & _ & _ & Ha & _).
  unfold balanced. now rewrite Hh, Ha.
Qed.

(** X16: in the scene of a graph whose edges are in range, whatever
    happened before, an event that picks body [o] shows the tooltip with the
    name and group of node [o] of the graph, at [clientX] plus the variant's
    offset and [clientY - 10], makes [o] the hovered body and sets the
    pointer cursor. *)
Theorem tooltip_shows_picked_node {T : Type} `{Number T}
    (variant : Variant) (g : Graph T) (evs : list MouseEvent) (ev : MouseEvent)
    (o : nat) (n : Node T) :
  edges_in_range g ->
  nodes g !! o = Some n ->
  pick (intersects ev) = Some o ->
  let w := onMouseMove variant (foldl (onMouseMove variant) (created variant g) evs) ev in
  tooltip w = {| display := DisplayBlock;
                 innerHTML := Some (name n, group n);
                 left := Some (clientX ev + tooltipDx variant)%Z;
                 top := Some (clientY ev - 10)%Z |}
  /\ hoveredNode w = Some o
  /\ cursor w = CursorPointer.
Proof.
  intros Hg Hn Hp. cbn zeta.
  set (W := foldl (onMouseMove variant) (created variant g) evs).
  assert (userData <$> nodeObjects (resetHover W)
          = userData <$> (createSphere variant <$> nodes g)) as Hud.
  { rewrite userData_resetHover. unfold W.
    pose proof (backdrop_events variant evs (created variant g)) as B. unfold backdrop in B.
    injection B as _ _ _ _ Bu. rewrite Bu.
    unfold created.
    destruct (createNetworkVisualization_in_range variant (set_graph initial_world g))
      as (lines & E & _); [exact Hg|].
    rewrite E. reflexivity. }
  assert (exists m, nodeObjects (resetHover W) !! o = Some m
                    /\ userData m = userData (createSphere variant n)) as (m & Hm & Em).
  { assert ((userData <$> nodeObjects (resetHover W)) !! o
            = Some (userData (createSphere variant n))) as Hl
      by (rewrite Hud, !list_lookup_fmap, Hn; reflexivity).
    rewrite list_lookup_fmap in Hl.
    destruct (nodeObjects (resetHover W) !! o) as [m|]; [|discriminate].
    exists m. split; [reflexivity|]. cbn in Hl. injection Hl as ->. reflexivity. }
  unfold onMouseMove, handleHover. rewrite Hp. cbn. rewrite Hm. cbn. rewrite Em.
  repeat split; reflexivity.
Qed.

(** ** Pointer coordinates and rotation in exact arithmetic *)

(** X17: in exact arithmetic, for a pointer inside a window of positive
    size, [mouse.x] and [mouse.y] lie between -1 and 1; the top-left corner
    maps to (-1, 1) and the bottom-right corner to (1, -1). *)
Theorem pointerNDC_range (clientX clientY innerWidth innerHeight : R) :
  (0 < innerWidth)%R -> (0 < innerHeight)%R ->
  (0 <= clientX <= innerWidth)%R -> (0 <= clientY <= innerHeight)%R ->
  (-1 <= (pointerNDC clientX clientY innerWidth innerHeight).1 <= 1)%R
  /\ (-1 <= (pointerNDC clientX clientY innerWidth innerHeight).2 <= 1)%R
  /\ pointerNDC 0%R 0%R innerWidth innerHeight = ((-1)%R, 1%R)
  /\ pointerNDC innerWidth innerHeight innerWidth innerHeight = (1%R, (-1)%R).
Proof.
  intros HW HH Hx Hy. unfold pointerNDC. cbn.
  assert (forall c s : R, (0 < s)%R -> (0 <= c <= s)%R -> (0 <= c / s <= 1)%R) as Hq.
  { intros c s Hs Hc. split.
    - apply Rmult_le_pos; [lra|]. left. now apply Rinv_0_lt_compat.
    - apply (Rmult_le_reg_r s); [exact Hs|].
      unfold Rdiv. rewrite Rmult_assoc, Rinv_l by lra. lra. }
  pose proof (Hq _ _ HW Hx) as Qx. pose proof (Hq _ _ HH Hy) as Qy.
  split; [lra|]. split; [lra|]. split.
  - f_equal; unfold Rdiv; rewrite Rmult_0_l; lra.
  - f_equal; unfold Rdiv; rewrite Rinv_r by lra; lra.
Qed.

Lemma animateRotation_step_x (q : Rotation R) :
  rotationX (animateRotation q)
  = (rotationX q + (targetRotationX q - rotationX q) * (5 / 100))%R.
Proof. reflexivity. Qed.

Lemma animateRotation_step_y (q : Rotation R) :
  rotationY (animateRotation q)
  = (rotationY q + (targetRotationY q - rotationY q) * (5 / 100))%R.
Proof. reflexivity. Qed.

(** X18: in exact arithmetic, each frame of the sibling variant's
    [animate] leaves the rotation targets alone and closes 5% of the gap
    between the rotation and its target: after [n] frames without a pointer
    event the gap is [0.95^n] times the initial one. *)
Theorem rotation_eases (r : Rotation R) (n : nat) :
  let r' := Nat.iter n animateRotation r in
  targetRotationX r' = targetRotationX r
  /\ targetRotationY r' = targetRotationY r
  /\ (targetRotationX r - rotationX r'
      = (95 / 100) ^ n * (targetRotationX r - rotationX r))%R
  /\ (targetRotationY r - rotationY r'
      = (95 / 100) ^ n * (targetRotationY r - rotationY r))%R.
Proof.
  cbn zeta. induction n as [|n (Tx & Ty & Gx & Gy)].
  - cbn. repeat split; lra.
  - change (Nat.iter (Datatypes.S n) animateRotation r)
      with (animateRotation (Nat.iter n animateRotation r)).
    set (q := Nat.iter n animateRotation r) in *.
    rewrite animateRotation_step_x, animateRotation_step_y.
    change (targetRotationX (animateRotation q)) with (targetRotationX q).
    change (targetRotationY (animateRotation q)) with (targetRotationY q).
    rewrite Tx, Ty. cbn [pow]. repeat split; lra.
Qed.

(** ** Concrete runs of the further properties *)

Lemma attraction_stops_at_dangling_witness :
  Forall (edge_in_range (length [nodeA; nodeB])) [mkEdge 0 1]
  /\ ~ edge_in_range (length [nodeA; nodeB]) (mkEdge 0 5)
  /\ exists ns1,
       attraction [mkEdge 0 1] [nodeA; nodeB] = Normal ns1
       /\ attraction ([mkEdge 0 1] ++ mkEdge 0 5 :: [mkEdge 1 0]) [nodeA; nodeB] = Throw ns1.
Proof.
  assert (Forall (edge_in_range (length [nodeA; nodeB])) [mkEdge 0 1]) as H1
    by (repeat constructor; cbn; lia).
  assert (~ edge_in_range (length [nodeA; nodeB]) (mkEdge 0 5)) as H2
    by (intros [_ Ht]; cbn in Ht; lia).
  split; [exact H1|]. split; [exact H2|].
  exact (attraction_stops_at_dangling [mkEdge 0 1] [mkEdge 1 0] (mkEdge 0 5)
           [nodeA; nodeB] H1 H2).
Defined.

Lemma applyForceLayout_failure_moves_nothing_witness :
  ~ edges_in_range dangling_graph
  /\ exists ns',
       applyForceLayout dangling_graph = Throw {| nodes := ns'; edges := edges dangling_graph |}
       /\ attraction (edges dangling_graph) (repulsion (resetForces (nodes dangling_graph)))
          = Throw ns'
       /\ (fun n => (name n, group n, id n, (x n, y n, z n), (vx n, vy n, vz n))) <$> ns'
          = (fun n => (name n, group n, id n, (x n, y n, z n), (vx n, vy n, vz n)))
              <$> nodes dangling_graph.
Proof.
  assert (~ edges_in_range dangling_graph) as Hbad.
  { intros Hall. apply Forall_cons in Hall as [_ Hall].
    apply Forall_cons in Hall as [[_ Ht] _]. cbn in Ht. lia. }
  split; [exact Hbad|].
  exact (applyForceLayout_failure_moves_nothing dangling_graph Hbad).
Defined.

Lemma applyForceLayout_ignores_accumulators_witness :
  applyForceLayout two_node_graph = applyForceLayout stale_graph.
Proof.
  exact (applyForceLayout_ignores_accumulators two_node_graph stale_graph eq_refl eq_refl).
Defined.

Lemma attraction_linear_spring_witness :
  position exactA <> position exactB
  /\ attractionForce exactA exactB
     = ((1 / 10) * (-4 - 1), (1 / 10) * (5 - 2), (1 / 10) * (-6 - 3))%R.
Proof.
  assert (position exactA <> position exactB) as Hne
    by (unfold position; cbn; intros E; injection E; lra).
  split; [exact Hne|].
  exact (attraction_linear_spring exactA exactB Hne).
Defined.

Lemma applyForceLayout_momentum_witness :
  edges_in_range exact_graph
  /\ exists ns',
       applyForceLayout exact_graph = Normal {| nodes := ns'; edges := edges exact_graph |}
       /\ total vx ns' = ((9 / 10) ^ 300 * total vx (nodes exact_graph))%R
       /\ total vy ns' = ((9 / 10) ^ 300 * total vy (nodes exact_graph))%R
       /\ total vz ns' = ((9 / 10) ^ 300 * total vz (nodes exact_graph))%R.
Proof.
  assert (edges_in_range exact_graph) as Hg
    by (repeat constructor; cbn; lia).
  split; [exact Hg|].
  exact (applyForceLayout_momentum exact_graph Hg).
Defined.

Lemma loadNetworkData_keeps_centroid_witness :
  let initial := imap (initNode exact_random) (data_nodes sound_data) in
  let final :=
    nodes (graph (loadNetworkData (index_js blend_white) sound_data exact_random
                    initial_world)) in
  Forall (edge_in_range (length (data_nodes sound_data))) (data_links sound_data)
  /\ length final = length initial
  /\ total x final = total x initial
  /\ total y final = total y initial
  /\ total z final = total z initial.
Proof.
  assert (Forall (edge_in_range (length (data_nodes sound_data))) (data_links sound_data))
    as Hd by (repeat constructor; cbn; lia).
  split; [exact Hd|].
  exact (loadNetworkData_keeps_centroid (index_js blend_white) sound_data exact_random
           initial_world Hd).
Defined.

Lemma loadNetworkData_in_range_witness :
  let w' := loadNetworkData (index_js blend_white) sound_data sample_random initial_world in
  Forall (edge_in_range (length (data_nodes sound_data))) (data_links sound_data)
  /\ console w' = []
  /\ edges (graph w') = [mkEdge 0 1]
  /\ (fun n => (name n, group n, id n)) <$> nodes (graph w')
     = [("A", 0%Z, 0%nat); ("B", 0%Z, 1%nat); ("C", 1%Z, 2%nat)]
  /\ length (nodeObjects w') = 3%nat
  /\ length (edgeObjects w') = 1%nat.
Proof.
  assert (Forall (edge_in_range (length (data_nodes sound_data))) (data_links sound_data))
    as Hd by (repeat constructor; cbn; lia).
  split; [exact Hd|].
  destruct (loadNetworkData_in_range (index_js blend_white) sound_data sample_random
              initial_world Hd) as (Hc & He & Hi & Ho & Hl).
  split; [exact Hc|]. split; [exact He|]. split; [exact Hi|].
  split; [|exact Hl].
  rewrite Ho, length_app, length_fmap.
  apply (f_equal length) in Hi. rewrite length_fmap in Hi. rewrite Hi. reflexivity.
Defined.

Lemma createNetworkVisualization_lines_witness :
  edges_in_range (graph (set_graph initial_world offgrid_graph))
  /\ exists w' lines,
       createNetworkVisualization (index_js blend_white)
         (set_graph initial_world offgrid_graph) = Normal w'
       /\ edgeObjects w' = [] ++ lines
       /\ length lines = 1%nat
       /\ lines !! 0%nat
          = Some {| line_from := (0x1.99999ap-4%float, 0x1.99999ap-3%float,
                                  0x1.333334p-2%float);
                    line_to := ((-0x1.666666p-1)%float, 16777216%float, 0.5%float) |}.
Proof.
  assert (edges_in_range (graph (set_graph initial_world offgrid_graph))) as Hg
    by (repeat constructor; cbn; lia).
  split; [exact Hg|].
  destruct (createNetworkVisualization_lines (index_js blend_white)
              (set_graph initial_world offgrid_graph) Hg) as (w' & lines & E & Ho & Hl & Hk).
  exists w', lines. split; [exact E|]. split; [exact Ho|]. split; [exact Hl|].
  destruct (Hk 0%nat (mkEdge 0 1) eq_refl) as (s & t & Es & Et & Hline).
  cbn in Es, Et. injection Es as <-. injection Et as <-.
  rewrite Hline. vm_compute. reflexivity.
Defined.

Lemma groupColor_wraps_witness :
  groupColors (index_js blend_white) <> []
  /\ groupColor (index_js blend_white) 16 = Some 0x107c10%Z
  /\ groupColor (index_js blend_white) (-1) = None.
Proof.
  assert (groupColors (index_js blend_white) <> []) as Hne by discriminate.
  split; [exact Hne|].
  destruct (groupColor_wraps (index_js blend_white) 16 Hne) as [Hpos _].
  destruct (groupColor_wraps (index_js blend_white) (-1) Hne) as [_ Hneg].
  split.
  - destruct (Hpos ltac:(lia)) as (c & Hc & Hl & _).
    rewrite Hc. rewrite <- Hl. reflexivity.
  - apply Hneg; [lia|]. vm_compute. discriminate.
Defined.

Lemma tooltip_shows_picked_node_witness :
  let w := onMouseMove (index_js blend_white)
             (foldl (onMouseMove (index_js blend_white)) hover_scene [over_both])
             over_second in
  edges_in_range two_node_graph
  /\ nodes two_node_graph !! 1%nat = Some nodeB
  /\ pick (intersects over_second) = Some 1%nat
  /\ tooltip w = {| display := DisplayBlock; innerHTML := Some ("B", 1%Z);
                    left := Some 315%Z; top := Some 30%Z |}
  /\ hoveredNode w = Some 1%nat
  /\ cursor w = CursorPointer.
Proof.
  assert (edges_in_range two_node_graph) as Hg
    by (repeat constructor; cbn; lia).
  split; [exact Hg|]. split; [reflexivity|]. split; [reflexivity|].
  exact (tooltip_shows_picked_node (index_js blend_white) two_node_graph [over_both]
           over_second 1%nat nodeB Hg eq_refl eq_refl).
Defined.

Lemma pointerNDC_range_witness :
  (0 < 800)%R /\ (0 < 600)%R /\ (0 <= 100 <= 800)%R /\ (0 <= 80 <= 600)%R
  /\ (-1 <= (pointerNDC 100 80 800 600).1 <= 1)%R
  /\ (-1 <= (pointerNDC 100 80 800 600).2 <= 1)%R
  /\ pointerNDC 0%R 0%R 800%R 600%R = ((-1)%R, 1%R)
  /\ pointerNDC 800%R 600%R 800%R 600%R = (1%R, (-1)%R).
Proof.
  assert (0 < 800)%R as HW by lra. assert (0 < 600)%R as HH by lra.
  assert (0 <= 100 <= 800)%R as Hx by lra. assert (0 <= 80 <= 600)%R as Hy by lra.
  split; [exact HW|]. split; [exact HH|]. split; [exact Hx|]. split; [exact Hy|].
  exact (pointerNDC_range 100 80 800 600 HW HH Hx Hy).
Defined.

Lemma resolve_nearest_witness :
  dot (direction ray_z) (direction ray_z) = 1%R
  /\ first_meeting ray_z far_body 10
  /\ first_meeting ray_z near_body 5
  /\ resolve ray_z [far_body; near_body] = Some 1%nat
  /\ intersectObjects ray_z64 [far_body64; near_body64]
     = [mkHit 5%float 1%nat; mkHit 10%float 0%nat]
  /\ hoveredNode (onMouseMove (index_js blend_white) hover_scene over_far_and_near)
     = Some 1%nat.
Proof.
  assert (dot (direction ray_z) (direction ray_z) = 1%R) as Hu by (cbn; lra).
  assert (forall c t : R, ((t - c) * (t - c) = 1 -> c - 1 <= t)%R) as Hsq.
  { intros c t Ht. destruct (Rle_dec (c - 1) t) as [|Hn]; [assumption|exfalso].
    assert (0 < (c - 1 - t))%R as Hp by lra.
    pose proof (Rmult_lt_0_compat _ _ Hp Hp). lra. }
  assert (first_meeting ray_z far_body 10) as Hfar.
  { unfold first_meeting, on_sphere, ray_at, dot, vsub. cbn.
    split; [lra|]. split; [lra|]. intros t' _ Hon.
    pose proof (Hsq 11%R t'). lra. }
  assert (first_meeting ray_z near_body 5) as Hnear.
  { unfold first_meeting, on_sphere, ray_at, dot, vsub. cbn.
    split; [lra|]. split; [lra|]. intros t' _ Hon.
    pose proof (Hsq 6%R t'). lra. }
  split; [exact Hu|]. split; [exact Hfar|]. split; [exact Hnear|].
  split; [|split; vm_compute; reflexivity].
  destruct (resolve_nearest ray_z [far_body; near_body] Hu) as [Hnone Hsome].
  destruct (resolve ray_z [far_body; near_body]) as [i|].
  - destruct (Hsome i eq_refl) as (b & t & Hb & Hfm & Hmin).
    destruct i as [|[|i]]; cbn in Hb.
    + injection Hb as <-.
      pose proof (first_meeting_unique _ _ _ _ Hfm Hfar) as ->.
      pose proof (Hmin 1%nat near_body 5%R eq_refl Hnear). lra.
    + reflexivity.
    + discriminate.
  - exfalso. apply (proj1 Hnone eq_refl 1%nat near_body 5%R eq_refl); [lra|].
    exact (proj1 (proj2 Hnear)).
Defined.

Lemma hover_one_highlight_witness :
  let w0 := created (index_js blend_white) two_node_graph in
  let w := foldl (onMouseMove (index_js blend_white)) w0 [over_both; over_second] in
  palette_covers (index_js blend_white) (nodes two_node_graph)
  /\ hoveredNode w = Some 1%nat
  /\ (forall k1 k2 m1 m2,
        nodeObjects w !! k1 = Some m1 -> nodeObjects w !! k2 = Some m2 ->
        highlighted m1 -> highlighted m2 -> k1 = k2)
  /\ userData <$> nodeObjects w = userData <$> nodeObjects w0
  /\ (fun m => (color m, scale m)) <$> nodeObjects (resetHover w)
     = (fun m => (color m, scale m)) <$> nodeObjects w0.
Proof.
  cbn zeta.
  assert (palette_covers (index_js blend_white) (nodes two_node_graph)) as Hpal
    by (repeat constructor; eexists; reflexivity).
  split; [exact Hpal|]. split; [vm_compute; reflexivity|].
  destruct (hover_one_highlight (index_js blend_white) two_node_graph
              [over_both; over_second] Hpal) as (Hone & Hud & _).
  split; [exact Hone|]. split; [exact Hud|].
  vm_compute. reflexivity.
Defined.

Lemma hover_restores_scene_witness :
  let w0 := created (index_js blend_white) two_node_graph in
  palette_covers (index_js blend_white) (nodes two_node_graph)
  /\ nodeObjects (foldl (onMouseMove (index_js blend_white)) w0 [over_both; over_nothing])
     = nodeObjects w0
  /\ nodeObjects (foldl (onMouseMove (index_js blend_white)) w0 [over_both; over_second])
     = alter (highlight (index_js blend_white)) 1%nat (nodeObjects w0).
Proof.
  cbn zeta.
  assert (palette_covers (index_js blend_white) (nodes two_node_graph)) as Hpal
    by (repeat constructor; eexists; reflexivity).
  split; [exact Hpal|]. split.
  - rewrite (hover_restores_scene (index_js blend_white) two_node_graph
               [over_both; over_nothing] Hpal).
    reflexivity.
  - rewrite (hover_restores_scene (index_js blend_white) two_node_graph
               [over_both; over_second] Hpal).
    reflexivity.
Defined.
